(** * PriorityQueue.h: an array-backed binary heap

    A shallow embedding of the class template
    [PriorityQueue<T, Container, Compare>] of [src/PriorityQueue.h], with
    [Container = std::vector<T>].

    - [size_type] is [size_t]: a 64-bit unsigned integer, modelled as [N]
      with the wrap-around of every arithmetic operation written out.
    - the backing vector [c] is a [list T]; [c[i]] outside [0 .. c.size())
      is undefined behaviour in C++ and is modelled as the fault
      [OutOfBounds i], [c.pop_back()] on an empty vector as [PopBackEmpty].
    - member functions are computations in a state-and-fault monad over
      the container; the recursions [upheap] and [downheap] take fuel.
    - the state also carries a trace: the calls of the private helpers and
      the lines [pop] writes to [std::cout]. *)

From Stdlib Require Import NArith ZArith Lia List Permutation.
From stdpp Require Import base list sorting.

Local Open Scope N_scope.

(** ** [size_t] arithmetic *)

Module SizeT.

Definition modulus : N := Eval cbv in 2 ^ 64.

Definition add (a b : N) : N := (a + b) mod modulus.
Definition sub (a b : N) : N := (a + modulus - b mod modulus) mod modulus.
Definition mul (a b : N) : N := (a * b) mod modulus.
Definition div (a b : N) : N := a / b.

(** An upper bound of [std::vector<T>::max_size()]: [PTRDIFF_MAX]. *)
Definition max_size : N := Eval cbv in 2 ^ 63 - 1.

End SizeT.

(** ** Index arithmetic of the implicit tree (lines 20-22) *)

Definition parent (index : N) : N := SizeT.div (SizeT.sub index 1) 2.
Definition left_child (index : N) : N := SizeT.add (SizeT.mul 2 index) 1.
Definition right_child (index : N) : N := SizeT.mul 2 (SizeT.add index 1).

(** ** Faults *)

(** [EmptyContainer] is the signal the specification names for [top] and
    [pop] on an empty heap; no statement of PriorityQueue.h raises it.
    The other two are the undefined behaviours of [std::vector] the code
    can run into. *)
Inductive fault : Type :=
  | EmptyContainer
  | OutOfBounds (index : N)
  | PopBackEmpty.

Section PriorityQueue.

Context {T : Type}.
Variable comp : T -> T -> bool.

(** ** State, trace and monad *)

(** What the trace records: the entry into [upheap] and [downheap], with
    the index passed and [c.size()] at that moment; the entry into
    [swap]; the two lines [pop] prints. *)
Inductive event : Type :=
  | Call_upheap (index size : N)
  | Call_swap (a b : N)
  | Call_downheap (index size : N)
  | Out_replacing (x y : T)
  | Out_finished.

Record state : Type := mkState { c : list T; trace : list event }.

Inductive outcome (A : Type) : Type :=
  | Ok (a : A) (s : state)
  | Fault (f : fault)
  | OutOfFuel.
Arguments Ok {A} a s.
Arguments Fault {A} f.
Arguments OutOfFuel {A}.

Definition M (A : Type) : Type := state -> outcome A.

Definition ret {A} (a : A) : M A := fun s => Ok a s.

Definition bind {A B} (m : M A) (k : A -> M B) : M B :=
  fun s => match m s with
           | Ok a s' => k a s'
           | Fault f => Fault f
           | OutOfFuel => OutOfFuel
           end.

Notation "'let*' x ':=' m 'in' k" := (bind m (fun x => k))
  (at level 10, x name, m at level 100, k at level 200).
Notation "m >> k" := (bind m (fun _ => k))
  (at level 100, k at level 200, right associativity).

Definition out_of_fuel {A} : M A := fun _ => OutOfFuel.
Definition emit (e : event) : M unit :=
  fun s => Ok tt (mkState (c s) (trace s ++ [e])).

(** ** The operations of [std::vector] the class uses *)

(** [c.size()] *)
Definition c_size : M N := fun s => Ok (N.of_nat (length (c s))) s.

(** [c[i]] read *)
Definition c_at (i : N) : M T :=
  fun s => match c s !! N.to_nat i with
           | Some x => Ok x s
           | None => Fault (OutOfBounds i)
           end.

(** [c[i] = x] *)
Definition c_set (i : N) (x : T) : M unit :=
  fun s => match c s !! N.to_nat i with
           | Some _ => Ok tt (mkState (<[N.to_nat i := x]> (c s)) (trace s))
           | None => Fault (OutOfBounds i)
           end.

(** [c.push_back(x)] *)
Definition c_push_back (x : T) : M unit :=
  fun s => Ok tt (mkState (c s ++ [x]) (trace s)).

(** [c.pop_back()] *)
Definition c_pop_back : M unit :=
  fun s => match c s with
           | [] => Fault PopBackEmpty
           | _ :: _ => Ok tt (mkState (removelast (c s)) (trace s))
           end.

(** ** Private members *)

(** line 130; it is used by [downheap] and by the move overload of [push] *)
Definition size : M N := c_size.

(** line 24 *)
Definition is_leaf (index : N) : M bool :=
  let* n := c_size in ret (n <=? left_child index).

(** line 23 *)
Definition is_internal (index : N) : M bool :=
  let* n := c_size in ret (left_child index <? n).

(** lines 38-50 *)
Fixpoint upheap (fuel : nat) (index : N) : M unit :=
  match fuel with
  | O => out_of_fuel
  | S fuel' =>
      let* n := c_size in
      emit (Call_upheap index n) >>
      if index =? 0 then ret tt
      else
        let* p := c_at (parent index) in
        let* x := c_at index in
        if comp p x then
          let* temp := c_at (parent index) in
          let* y := c_at index in
          c_set (parent index) y >>
          c_set index temp >>
          upheap fuel' (parent index)
        else ret tt
  end.

(** lines 63-67 *)
Definition swap (a b : N) : M unit :=
  emit (Call_swap a b) >>
  let* temp := c_at a in
  let* y := c_at b in
  c_set a y >>
  c_set b temp.

(** lines 69-94 *)
Fixpoint downheap (fuel : nat) (index : N) : M unit :=
  match fuel with
  | O => out_of_fuel
  | S fuel' =>
      let* n0 := c_size in
      emit (Call_downheap index n0) >>
      let lchild := left_child index in
      let rchild := right_child index in
      let* leaf := is_leaf index in
      if leaf then ret tt
      else
        let* n := size in
        if n <=? right_child index then
          let* x := c_at index in
          let* l := c_at lchild in
          if comp x l then
            swap index lchild >>
            downheap fuel' lchild
          else ret tt
        else
          let* r := c_at rchild in
          let* x := c_at index in
          let* both :=
            (if comp r x
             then let* l := c_at lchild in let* x' := c_at index in ret (comp l x')
             else ret false) in
          if (both : bool) then ret tt
          else
            let* r' := c_at rchild in
            let* l' := c_at lchild in
            if comp r' l' then
              swap index lchild >>
              downheap fuel' lchild
            else
              swap index rchild >>
              downheap fuel' rchild
  end.

(** The recursions are run with as much fuel as the container has
    elements, plus one: [upheap_ok] and [downheap_ok] below show
    that this never runs out. *)
Definition fuel_for : M nat := fun s => Ok (S (length (c s))) s.

(** ** Public members *)

(** line 111 *)
Definition top : M T := c_at 0.

(** line 121 *)
Definition empty : M bool := let* n := c_size in ret (n =? 0).

(** lines 141-144 *)
Definition push (value : T) : M unit :=
  c_push_back value >>
  let* n := c_size in
  let* f := fuel_for in
  upheap f (SizeT.sub n 1).

(** lines 155-158 *)
Definition push_move (value : T) : M unit :=
  c_push_back value >>
  let* n := size in
  let* f := fuel_for in
  upheap f (SizeT.sub n 1).

(** lines 168-176 *)
Definition pop : M unit :=
  let* x := c_at 0 in
  let* n := c_size in
  let* y := c_at (SizeT.sub n 1) in
  emit (Out_replacing x y) >>
  let* n' := c_size in
  swap 0 (SizeT.sub n' 1) >>
  c_pop_back >>
  let* f := fuel_for in
  downheap f 0 >>
  emit Out_finished.

(** [PriorityQueue() = default] *)
Definition init : state := mkState [] [].

(** ** Callers: sequences of operations, and the loop of main.cpp *)

Inductive op : Type := Push (v : T) | Pop.

Fixpoint run (ops : list op) : M unit :=
  match ops with
  | [] => ret tt
  | Push v :: rest => push v >> run rest
  | Pop :: rest => pop >> run rest
  end.

Fixpoint pushes (ops : list op) : nat :=
  match ops with
  | [] => O
  | Push _ :: rest => S (pushes rest)
  | Pop :: rest => pushes rest
  end.

Fixpoint pops (ops : list op) : nat :=
  match ops with
  | [] => O
  | Push _ :: rest => pops rest
  | Pop :: rest => S (pops rest)
  end.

(** every [Pop] of [ops] finds a non-empty heap when the heap holds [n]
    elements at the start *)
Fixpoint pops_nonempty (n : nat) (ops : list op) : bool :=
  match ops with
  | [] => true
  | Push _ :: rest => pops_nonempty (S n) rest
  | Pop :: rest =>
      match n with
      | O => false
      | S m => pops_nonempty m rest
      end
  end.

(** [n] times [top()] then [pop()], collecting what [top()] returned *)
Fixpoint drain (n : nat) : M (list T) :=
  match n with
  | O => ret []
  | S k =>
      let* x := top in
      pop >>
      let* rest := drain k in
      ret (x :: rest)
  end.

(** main.cpp, lines 24-27 and 31-34:
    [while (!q.empty()) { std::cout << q.top(); q.pop(); }] *)
Fixpoint drain_loop (fuel : nat) : M (list T) :=
  match fuel with
  | O => out_of_fuel
  | S fuel' =>
      let* e := empty in
      if negb e then
        let* x := top in
        pop >>
        let* rest := drain_loop fuel' in
        ret (x :: rest)
      else ret []
  end.

(** ** Views of the container used in the statements *)

Definition len (l : list T) : N := N.of_nat (length l).
Definition get (l : list T) (i : N) : option T := l !! N.to_nat i.

(** the sequence after the three moves of [swap]; it is only used where
    both positions are in range *)
Definition exchange (l : list T) (a b : N) : list T :=
  match get l a, get l b with
  | Some x, Some y => <[N.to_nat b := x]> (<[N.to_nat a := y]> l)
  | _, _ => l
  end.

(** the heap property, with the parent index as the specification
    writes it *)
Definition heap_property (l : list T) : Prop :=
  forall i x y, 0 < i -> get l i = Some x -> get l ((i - 1) / 2) = Some y ->
                comp y x = false.

(** the heap property everywhere but between [k] and its parent: what
    holds while [upheap] carries the pushed element up *)
Definition heap_but_up (l : list T) (k : N) : Prop :=
  (forall i x y, 0 < i -> i <> k ->
     get l i = Some x -> get l ((i - 1) / 2) = Some y -> comp y x = false) /\
  (forall i x y, 0 < i -> 0 < k -> (i - 1) / 2 = k ->
     get l i = Some x -> get l ((k - 1) / 2) = Some y -> comp y x = false).

(** the heap property everywhere but between [k] and its children: what
    holds while [downheap] carries the former last element down *)
Definition heap_but_down (l : list T) (k : N) : Prop :=
  (forall i x y, 0 < i -> (i - 1) / 2 <> k ->
     get l i = Some x -> get l ((i - 1) / 2) = Some y -> comp y x = false) /\
  (forall i x y, 0 < i -> 0 < k -> (i - 1) / 2 = k ->
     get l i = Some x -> get l ((k - 1) / 2) = Some y -> comp y x = false).

(** the container has at most [max_size()] elements *)
Definition fits (l : list T) : Prop := len l <= SizeT.max_size.

(** the state after [e] has been recorded *)
Definition entered (e : event) (s : state) : state :=
  mkState (c s) (trace s ++ [e]).

(** the state after a call [swap(a, b)] with both positions in range *)
Definition swapped (a b : N) (s : state) : state :=
  mkState (exchange (c s) a b) (trace s ++ [Call_swap a b]).

(** the computation [m] never ends in the fault [f] *)
Definition never_faults_with {A} (f : fault) (m : M A) : Prop :=
  forall s, m s <> Fault f.

Definition result {A} (o : outcome A) : option A :=
  match o with Ok a _ => Some a | _ => None end.

(** ** Reading the trace *)

(** a line written to [std::cout] *)
Definition is_output (e : event) : bool :=
  match e with
  | Out_replacing _ _ | Out_finished => true
  | _ => false
  end.

Definition is_upheap_call (e : event) : bool :=
  match e with Call_upheap _ _ => true | _ => false end.

Definition is_downheap_call (e : event) : bool :=
  match e with Call_downheap _ _ => true | _ => false end.

(** how many events of [evs] satisfy [f] *)
Definition count_events (f : event -> bool) (evs : list event) : nat :=
  length (List.filter f evs).

End PriorityQueue.

Arguments Ok {T A} a s.
Arguments Fault {T A} f.
Arguments OutOfFuel {T A}.
Arguments init {T}.
Arguments Pop {T}.

(** [std::less<int>] and [std::greater<int>], as main.cpp instantiates
    [Compare] *)
Definition less (a b : Z) : bool := (a <? b)%Z.
Definition greater (a b : Z) : bool := (a >? b)%Z.

(** main.cpp in short: push every element of [q] into a new heap, then
    take [n] elements out *)
Definition push_then_drain {T} (comp : T -> T -> bool) (q : list T) (n : nat)
  : outcome (list T) :=
  bind (run comp (map Push q)) (fun _ => drain comp n) init.

(** main.cpp as it is written, with the [while (!q.empty())] loop *)
Definition push_then_loop {T} (comp : T -> T -> bool) (q : list T)
  (fuel : nat) : outcome (list T) :=
  bind (run comp (map Push q)) (fun _ => drain_loop comp fuel) init.

(** "neither child has strictly higher priority than the node", the stop
    condition as the specification words it *)
Definition no_child_higher {T} (comp : T -> T -> bool) (x l r : T) : bool :=
  negb (comp x l) && negb (comp x r).

(** elements with a payload, ordered by their priority alone *)
Definition by_priority (a b : Z * nat) : bool := (fst a <? fst b)%Z.

(** The requirement [Compare] of the C++ standard library: a strict weak
    ordering. *)
Class StrictWeakOrdering {T : Type} (comp : T -> T -> bool) : Prop := {
  swo_irrefl : forall a, comp a a = false;
  swo_trans : forall a b d,
    comp a b = true -> comp b d = true -> comp a d = true;
  swo_incomp : forall a b d,
    comp a b = false -> comp b a = false ->
    comp b d = false -> comp d b = false ->
    comp a d = false /\ comp d a = false
}.

(** * Facts *)

(** ** [size_t] arithmetic without wrap-around *)

(** [lia] is run with the elimination of [/] and [mod] by constants. *)
Ltac Zify.zify_post_hook ::= Z.to_euclidean_division_equations.

Ltac unfold_size_t :=
  unfold parent, left_child, right_child, SizeT.div, SizeT.sub, SizeT.add,
    SizeT.mul, SizeT.max_size, SizeT.modulus in *.

Lemma sub_1_small n : 0 < n -> n < SizeT.modulus -> SizeT.sub n 1 = n - 1.
Proof. unfold_size_t. lia. Qed.

(** [c.size() - 1] on an empty container wraps around *)
Lemma sub_1_zero : SizeT.sub 0 1 = SizeT.modulus - 1.
Proof. reflexivity. Qed.

Lemma parent_small i : 0 < i -> i < SizeT.modulus -> parent i = (i - 1) / 2.
Proof. unfold_size_t. lia. Qed.

Lemma left_child_small i : i <= SizeT.max_size -> left_child i = 2 * i + 1.
Proof. unfold_size_t. lia. Qed.

Lemma right_child_small i : i < SizeT.max_size -> right_child i = 2 * i + 2.
Proof. unfold_size_t. lia. Qed.

Lemma parent_lt i : 0 < i -> i < SizeT.modulus -> parent i < i.
Proof. unfold_size_t. lia. Qed.

(** the children of [k] are the indices whose parent is [k] *)
Lemma half_pred_cases i k :
  0 < i -> ((i - 1) / 2 = k <-> i = 2 * k + 1 \/ i = 2 * k + 2).
Proof. lia. Qed.

(** ** The container views *)

Section Views.

Context {T : Type}.
Implicit Types (l : list T) (i a b : N) (x y : T).

Lemma get_lt l i x : get l i = Some x -> i < len l.
Proof. unfold get, len. intros H%lookup_lt_Some. lia. Qed.

Lemma get_some l i : i < len l -> exists x, get l i = Some x.
Proof.
  unfold get, len. intros H.
  destruct (lookup_lt_is_Some_2 l (N.to_nat i)) as [x E]; [lia | eauto].
Qed.

Lemma get_none l i : len l <= i -> get l i = None.
Proof. unfold get, len. intros H. apply lookup_ge_None_2. lia. Qed.

Lemma get_ext l1 l2 : (forall i, get l1 i = get l2 i) -> l1 = l2.
Proof.
  intros H. apply list_eq. intros n. specialize (H (N.of_nat n)).
  unfold get in H. now rewrite Nat2N.id in H.
Qed.

Lemma len_exchange l a b : len (exchange l a b) = len l.
Proof.
  unfold exchange, len. destruct (get l a), (get l b); try reflexivity.
  now rewrite !length_insert.
Qed.

Lemma get_exchange l a b x y i :
  get l a = Some x -> get l b = Some y ->
  get (exchange l a b) i =
    if i =? b then Some x else if i =? a then Some y else get l i.
Proof.
  intros Ha Hb. unfold exchange. rewrite Ha, Hb.
  pose proof (get_lt _ _ _ Ha) as La. pose proof (get_lt _ _ _ Hb) as Lb.
  unfold get, len in *.
  destruct (N.eqb_spec i b) as [-> | Nb].
  - apply list_lookup_insert_eq. rewrite length_insert. lia.
  - rewrite list_lookup_insert_ne by lia.
    destruct (N.eqb_spec i a) as [-> | Na].
    + apply list_lookup_insert_eq. lia.
    + apply list_lookup_insert_ne. lia.
Qed.

Lemma insert_perm (l : list T) (n : nat) x y :
  l !! n = Some x -> Permutation (y :: l) (x :: <[n := y]> l).
Proof.
  revert n. induction l as [| z l IH]; intros [| n] H; simpl in *; try discriminate.
  - injection H as ->. apply perm_swap.
  - etransitivity; [apply perm_swap |].
    etransitivity; [apply perm_skip, (IH n H) |]. apply perm_swap.
Qed.

Lemma exchange_perm l a b : Permutation l (exchange l a b).
Proof.
  unfold exchange. destruct (get l a) as [x |] eqn:Ha; [| reflexivity].
  destruct (get l b) as [y |] eqn:Hb; [| reflexivity].
  apply (Permutation_cons_inv (a := y)).
  rewrite (insert_perm l (N.to_nat a) x y Ha).
  apply (insert_perm _ (N.to_nat b) y x).
  unfold get in *. destruct (decide (N.to_nat a = N.to_nat b)) as [E | E].
  - rewrite E. apply list_lookup_insert_eq. now apply lookup_lt_Some in Hb.
  - now rewrite list_lookup_insert_ne.
Qed.

Lemma len_snoc l x : len (l ++ [x]) = len l + 1.
Proof. unfold len. rewrite length_app. simpl. lia. Qed.

Lemma get_snoc l x i :
  get (l ++ [x]) i = if i <? len l then get l i
                     else if i =? len l then Some x else None.
Proof.
  unfold get, len. destruct (N.ltb_spec i (N.of_nat (length l))).
  - apply lookup_app_l. lia.
  - destruct (N.eqb_spec i (N.of_nat (length l))) as [-> | Ne].
    + rewrite Nat2N.id. rewrite lookup_app_r by lia.
      now rewrite Nat.sub_diag.
    + apply lookup_ge_None_2. rewrite length_app. simpl. lia.
Qed.

Lemma len_removelast l : len (removelast l) = len l - 1.
Proof.
  unfold len. rewrite removelast_firstn_len, length_take. lia.
Qed.

Lemma get_removelast l i :
  get (removelast l) i = if i + 1 <? len l then get l i else None.
Proof.
  unfold get, len. rewrite removelast_firstn_len.
  destruct (N.ltb_spec (i + 1) (N.of_nat (length l))).
  - apply lookup_take_lt. lia.
  - apply lookup_take_ge. lia.
Qed.

Lemma removelast_snoc_get l x :
  get l (len l - 1) = Some x -> l = removelast l ++ [x].
Proof.
  intros H. apply get_ext. intros i.
  rewrite get_snoc, len_removelast, get_removelast.
  pose proof (get_lt _ _ _ H).
  destruct (N.ltb_spec i (len l - 1)); destruct (N.ltb_spec (i + 1) (len l));
    try lia; try reflexivity.
  destruct (N.eqb_spec i (len l - 1)) as [-> | Ne]; [assumption |].
  apply get_none. lia.
Qed.

Lemma push_index (q : list T) v :
  len q < SizeT.modulus -> SizeT.sub (len (q ++ [v])) 1 = len q.
Proof. intros H. rewrite len_snoc. unfold_size_t. lia. Qed.

Lemma push_index_bounds (q : list T) v :
  SizeT.sub (len (q ++ [v])) 1 < SizeT.modulus /\
  SizeT.sub (len (q ++ [v])) 1 < len (q ++ [v]).
Proof. rewrite len_snoc. unfold_size_t. lia. Qed.

End Views.

(** ** One step of each recursion, as an equation on states *)

Section Steps.

Context {T : Type}.
Variable comp : T -> T -> bool.
Implicit Types (s : @state T) (i a b k : N) (x y l r : T).

Lemma swap_exchange a b s x y :
  get (c s) a = Some x -> get (c s) b = Some y ->
  swap a b s = Ok tt (swapped a b s).
Proof.
  intros Ha Hb. unfold swap, swapped, exchange, bind, emit, c_at, c_set.
  cbn [c trace]. unfold get in *. rewrite Ha. cbn [c trace].
  rewrite Hb. cbn [c trace]. rewrite Ha. cbn [c trace].
  destruct (<[N.to_nat a:=y]> (c s) !! N.to_nat b) eqn:E; [reflexivity |].
  apply lookup_ge_None_1 in E. rewrite length_insert in E.
  apply lookup_lt_Some in Hb. lia.
Qed.

Lemma upheap_step fuel k s :
  upheap comp (S fuel) k s =
    let s1 := entered (Call_upheap k (len (c s))) s in
    if k =? 0 then Ok tt s1
    else match get (c s) (parent k), get (c s) k with
         | Some p, Some x =>
             if comp p x
             then upheap comp fuel (parent k)
                    (mkState (exchange (c s) (parent k) k) (trace s1))
             else Ok tt s1
         | None, _ => Fault (OutOfBounds (parent k))
         | Some _, None => Fault (OutOfBounds k)
         end.
Proof.
  cbn [upheap]. unfold bind, c_size, emit, c_at, c_set, ret, entered, exchange, get.
  cbn [c trace]. fold (len (c s)).
  destruct (k =? 0); [reflexivity |]. cbn [c trace].
  destruct (c s !! N.to_nat (parent k)) as [p |] eqn:Ep; cbn [c trace]; [| reflexivity].
  destruct (c s !! N.to_nat k) as [x |] eqn:Ex; cbn [c trace]; [| reflexivity].
  destruct (comp p x); [| reflexivity]. cbn [c trace].
  rewrite Ep; cbn [c trace]. rewrite Ex; cbn [c trace]. rewrite Ep; cbn [c trace].
  destruct (<[N.to_nat (parent k):=x]> (c s) !! N.to_nat k) eqn:E; [reflexivity |].
  apply lookup_ge_None_1 in E. rewrite length_insert in E.
  apply lookup_lt_Some in Ex. lia.
Qed.

Lemma downheap_leaf fuel k s :
  len (c s) <= left_child k ->
  downheap comp (S fuel) k s = Ok tt (entered (Call_downheap k (len (c s))) s).
Proof.
  intros H. cbn [downheap].
  unfold is_leaf. unfold bind, c_size, emit, ret, entered. cbn [c trace].
  fold (len (c s)). apply N.leb_le in H. now rewrite H.
Qed.

Lemma downheap_left_only fuel k s x l :
  left_child k < len (c s) -> len (c s) <= right_child k ->
  get (c s) k = Some x -> get (c s) (left_child k) = Some l ->
  downheap comp (S fuel) k s =
    let s1 := entered (Call_downheap k (len (c s))) s in
    if comp x l
    then downheap comp fuel (left_child k) (swapped k (left_child k) s1)
    else Ok tt s1.
Proof.
  intros HL HR Hx Hl. cbn [downheap].
  unfold is_leaf, size. unfold bind, c_size, emit, ret, c_at, entered.
  cbn [c trace]. fold (len (c s)). unfold get in Hx, Hl.
  apply N.leb_gt in HL. apply N.leb_le in HR.
  rewrite HL. cbn [c trace]. fold (len (c s)). rewrite HR. cbn [c trace].
  rewrite Hx. cbn [c trace]. rewrite Hl. cbn [c trace].
  destruct (comp x l); [| reflexivity].
  now rewrite (swap_exchange k (left_child k) _ x l).
Qed.

Lemma downheap_both fuel k s x l r :
  right_child k < len (c s) ->
  get (c s) k = Some x -> get (c s) (left_child k) = Some l ->
  get (c s) (right_child k) = Some r ->
  downheap comp (S fuel) k s =
    let s1 := entered (Call_downheap k (len (c s))) s in
    if comp r x && comp l x then Ok tt s1
    else if comp r l
         then downheap comp fuel (left_child k) (swapped k (left_child k) s1)
         else downheap comp fuel (right_child k) (swapped k (right_child k) s1).
Proof.
  intros HR Hx Hl Hr. cbn [downheap].
  pose proof (get_lt _ _ _ Hl) as HL.
  unfold is_leaf, size. unfold bind, c_size, emit, ret, c_at, entered.
  cbn [c trace]. fold (len (c s)). unfold get in Hx, Hl, Hr.
  apply N.leb_gt in HL. apply N.leb_gt in HR.
  rewrite HL. cbn [c trace]. fold (len (c s)). rewrite HR. cbn [c trace].
  rewrite Hr. cbn [c trace]. rewrite Hx. cbn [c trace].
  destruct (comp r x); cbn [c trace andb].
  - rewrite Hl. cbn [c trace]. rewrite Hx. cbn [c trace].
    destruct (comp l x); [reflexivity |]. cbn [c trace].
    rewrite Hr. cbn [c trace]. rewrite Hl. cbn [c trace].
    destruct (comp r l).
    + now rewrite (swap_exchange k (left_child k) _ x l).
    + now rewrite (swap_exchange k (right_child k) _ x r).
  - rewrite Hr. cbn [c trace]. rewrite Hl. cbn [c trace].
    destruct (comp r l).
    + now rewrite (swap_exchange k (left_child k) _ x l).
    + now rewrite (swap_exchange k (right_child k) _ x r).
Qed.

(** *** Both recursions return, and only exchange elements *)

Lemma upheap_ok fuel k s :
  k < SizeT.modulus -> k < len (c s) -> (N.to_nat k < fuel)%nat ->
  exists s', upheap comp fuel k s = Ok tt s' /\ Permutation (c s) (c s').
Proof.
  revert k s. induction fuel as [| fuel IH]; intros k s Hm Hk Hfuel; [lia |].
  rewrite upheap_step. cbv zeta.
  destruct (N.eqb_spec k 0) as [-> | Nz]; [now eexists |].
  pose proof (parent_lt k ltac:(lia) Hm) as Hp.
  destruct (get_some (c s) (parent k)) as [p Ep]; [lia |].
  destruct (get_some (c s) k) as [x Ex]; [lia |].
  rewrite Ep, Ex. destruct (comp p x); [| now eexists].
  edestruct (IH (parent k)) as [s' [E P]]; [| | | exists s'; split; [exact E |]].
  - lia.
  - cbn [c]. rewrite len_exchange. lia.
  - lia.
  - etransitivity; [apply (exchange_perm _ (parent k) k) | exact P].
Qed.

Lemma downheap_ok fuel k s :
  fits (c s) -> k <= len (c s) -> len (c s) < k + N.of_nat fuel ->
  exists s', downheap comp fuel k s = Ok tt s' /\ Permutation (c s) (c s').
Proof.
  revert k s. induction fuel as [| fuel IH]; intros k s Hfit Hk Hfuel; [lia |].
  assert (left_child k = 2 * k + 1) as EL
    by (apply left_child_small; unfold fits in Hfit; lia).
  destruct (N.le_gt_cases (len (c s)) (left_child k)) as [HL | HL].
  { rewrite downheap_leaf by assumption. now eexists. }
  assert (right_child k = 2 * k + 2) as ER
    by (apply right_child_small; unfold fits in Hfit; lia).
  destruct (get_some (c s) k) as [x Ex]; [lia |].
  destruct (get_some (c s) (left_child k)) as [l El]; [lia |].
  assert (forall j, k < j -> j < len (c s) ->
            exists s', downheap comp fuel j
                         (swapped k j (entered (Call_downheap k (len (c s))) s))
                       = Ok tt s' /\ Permutation (c s) (c s')) as Hrec.
  { intros j Hj Hjl.
    edestruct (IH j) as [s' [E P]]; [| | | exists s'; split; [exact E |]].
    - unfold fits in *. cbn [c swapped entered]. now rewrite len_exchange.
    - cbn [c swapped entered]. rewrite len_exchange. lia.
    - cbn [c swapped entered]. rewrite len_exchange. lia.
    - etransitivity; [apply (exchange_perm _ k j) | exact P]. }
  destruct (N.le_gt_cases (len (c s)) (right_child k)) as [HR | HR].
  - rewrite (downheap_left_only fuel k s x l) by assumption. cbv zeta.
    destruct (comp x l); [apply Hrec; lia | now eexists].
  - destruct (get_some (c s) (right_child k)) as [r Er]; [lia |].
    rewrite (downheap_both fuel k s x l r) by assumption. cbv zeta.
    destruct (comp r x && comp l x); [now eexists |].
    destruct (comp r l); apply Hrec; lia.
Qed.

(** *** [push] and [pop] *)

Lemma push_unfold v s :
  push comp v s =
    upheap comp (S (length (c s ++ [v]))) (SizeT.sub (len (c s ++ [v])) 1)
      (mkState (c s ++ [v]) (trace s)).
Proof. reflexivity. Qed.

Lemma push_ok v s :
  exists s', push comp v s = Ok tt s' /\ Permutation (v :: c s) (c s').
Proof.
  rewrite push_unfold.
  destruct (push_index_bounds (c s) v) as [Hm Hl].
  edestruct (upheap_ok (S (length (c s ++ [v])))
               (SizeT.sub (len (c s ++ [v])) 1)
               (mkState (c s ++ [v]) (trace s)))
    as [s' [E P]]; [exact Hm | exact Hl | | exists s'; split; [exact E |]].
  - unfold len in *. lia.
  - cbn [c] in P. rewrite <- P. apply Permutation_cons_append.
Qed.

(** the container [pop] hands to [downheap] *)
Lemma pop_unfold s x y :
  get (c s) 0 = Some x -> get (c s) (len (c s) - 1) = Some y ->
  len (c s) < SizeT.modulus ->
  let l' := removelast (exchange (c s) 0 (len (c s) - 1)) in
  pop comp s =
    bind (downheap comp (S (length l')) 0) (fun _ => emit Out_finished)
      (mkState l' (trace s ++ [Out_replacing x y;
                               Call_swap 0 (len (c s) - 1)])).
Proof.
  intros Hx Hy Hm l'. pose proof (get_lt _ _ _ Hx) as Hpos.
  unfold pop. unfold bind at 1. unfold c_at at 1. fold (get (c s) 0).
  rewrite Hx. unfold bind at 1. unfold c_size at 1. fold (len (c s)).
  rewrite sub_1_small by assumption.
  unfold bind at 1. unfold c_at at 1. fold (get (c s) (len (c s) - 1)).
  rewrite Hy. unfold bind at 1. unfold emit at 1.
  unfold bind at 1. unfold c_size at 1. cbn [c trace]. fold (len (c s)).
  rewrite sub_1_small by assumption.
  unfold bind at 1. rewrite (swap_exchange _ _ _ x y) by assumption.
  unfold swapped. cbn [c trace].
  unfold bind at 1. unfold c_pop_back. cbn [c trace].
  destruct (exchange (c s) 0 (len (c s) - 1)) as [| z e] eqn:Ee.
  { apply (f_equal len) in Ee. rewrite len_exchange in Ee.
    change (len []) with 0 in Ee. lia. }
  unfold bind at 1. unfold fuel_for at 1. cbn [c trace].
  subst l'. now rewrite <- app_assoc.
Qed.

Lemma pop_ok s :
  fits (c s) -> 0 < len (c s) ->
  exists s' x, pop comp s = Ok tt s' /\ get (c s) 0 = Some x /\
               Permutation (c s) (x :: c s').
Proof.
  intros Hfit Hpos.
  destruct (get_some (c s) 0) as [x Hx]; [lia |].
  destruct (get_some (c s) (len (c s) - 1)) as [y Hy]; [lia |].
  rewrite (pop_unfold s x y) by
    (try assumption; unfold fits, SizeT.max_size, SizeT.modulus in *; lia).
  cbv zeta. set (e := exchange (c s) 0 (len (c s) - 1)).
  assert (len e = len (c s)) as Le by apply len_exchange.
  assert (e = removelast e ++ [x]) as Ee.
  { apply removelast_snoc_get. rewrite Le. unfold e.
    rewrite (get_exchange _ _ _ x y) by assumption. now rewrite N.eqb_refl. }
  edestruct (downheap_ok (S (length (removelast e))) 0) as [s' [E P]];
    [| | | unfold bind; rewrite E; unfold emit;
           eexists; exists x; split; [reflexivity | split; [exact Hx |]]].
  - unfold fits in *. cbn [c]. rewrite len_removelast. lia.
  - cbn [c]. lia.
  - cbn [c]. unfold len. lia.
  - cbn [c] in *. rewrite <- P.
    rewrite (exchange_perm (c s) 0 (len (c s) - 1)). fold e.
    rewrite Ee at 1. symmetry. apply Permutation_cons_append.
Qed.

(** *** Sequences of operations *)

Lemma run_ok ops s :
  pops_nonempty (length (c s)) ops = true ->
  N.of_nat (length (c s) + length ops) <= SizeT.max_size ->
  exists s', run comp ops s = Ok tt s' /\
             (length (c s') + pops ops = length (c s) + pushes ops)%nat.
Proof.
  revert s. induction ops as [| [v |] rest IH]; intros s Hne Hb.
  - exists s. split; [reflexivity | cbn; lia].
  - destruct (push_ok v s) as [s1 [E P]]. apply Permutation_length in P.
    cbn [length] in P. cbn [run]. unfold bind. rewrite E.
    destruct (IH s1) as [s' [E' Hc]].
    + now rewrite <- P.
    + cbn [length] in Hb. lia.
    + exists s'. split; [exact E' |]. cbn [pushes pops]. lia.
  - cbn [pops_nonempty] in Hne.
    destruct (length (c s)) as [| m] eqn:Hlen; [discriminate |].
    destruct (pop_ok s) as [s1 [x [E [_ P]]]].
    + unfold fits, len. lia.
    + unfold len. lia.
    + apply Permutation_length in P. cbn [length] in P.
      cbn [run]. unfold bind. rewrite E.
      destruct (IH s1) as [s' [E' Hc]].
      * replace (length (c s1)) with m by lia. exact Hne.
      * cbn [length] in Hb. lia.
      * exists s'. split; [exact E' |]. cbn [pushes pops]. lia.
Qed.

(** *** No member function raises [EmptyContainer] *)

Abbreviation quiet := (never_faults_with EmptyContainer).

Lemma quiet_ret {A} (a : A) : quiet (@ret T A a).
Proof. intros s. discriminate. Qed.

Lemma quiet_bind {A B} (m : @M T A) (f : A -> @M T B) :
  quiet m -> (forall u, quiet (f u)) -> quiet (bind m f).
Proof.
  intros Hm Hf s. unfold bind. specialize (Hm s).
  destruct (m s) as [u s1 | e |]; [apply Hf | | discriminate].
  intros [= ->]. now apply Hm.
Qed.

Lemma quiet_emit (e : @event T) : quiet (emit e).
Proof. intros s. discriminate. Qed.

Lemma quiet_out_of_fuel {A} : quiet (@out_of_fuel T A).
Proof. intros s. discriminate. Qed.

Lemma quiet_c_size : quiet (@c_size T).
Proof. intros s. discriminate. Qed.

Lemma quiet_fuel_for : quiet (@fuel_for T).
Proof. intros s. discriminate. Qed.

Lemma quiet_c_at i : quiet (@c_at T i).
Proof. intros s. unfold c_at. destruct (c s !! N.to_nat i); discriminate. Qed.

Lemma quiet_c_set i x : quiet (c_set i x).
Proof. intros s. unfold c_set. destruct (c s !! N.to_nat i); discriminate. Qed.

Lemma quiet_c_push_back x : quiet (c_push_back x).
Proof. intros s. discriminate. Qed.

Lemma quiet_c_pop_back : quiet (@c_pop_back T).
Proof. intros s. unfold c_pop_back. destruct (c s); discriminate. Qed.

Ltac quiet_step :=
  first
    [ apply quiet_ret | apply quiet_emit | apply quiet_out_of_fuel
    | apply quiet_c_size | apply quiet_fuel_for | apply quiet_c_at
    | apply quiet_c_set | apply quiet_c_push_back | apply quiet_c_pop_back
    | assumption
    | apply quiet_bind; [| intros ?]
    | match goal with
      | |- never_faults_with _ (if ?b then _ else _) => destruct b
      end ].

Lemma quiet_swap a b : quiet (@swap T a b).
Proof. unfold swap. repeat quiet_step. Qed.

Lemma quiet_upheap fuel k : quiet (upheap comp fuel k).
Proof.
  revert k. induction fuel as [| fuel IH]; intros k; cbn [upheap];
    repeat quiet_step. apply IH.
Qed.

Lemma quiet_downheap fuel k : quiet (downheap comp fuel k).
Proof.
  revert k. induction fuel as [| fuel IH]; intros k; cbn [downheap];
    cbv zeta; unfold is_leaf, size;
    repeat first [apply quiet_swap | apply IH | quiet_step].
Qed.

Lemma quiet_top : quiet (@top T).
Proof. apply quiet_c_at. Qed.

Lemma quiet_push v : quiet (push comp v).
Proof. unfold push. repeat first [apply quiet_upheap | quiet_step]. Qed.

Lemma quiet_pop : quiet (pop comp).
Proof.
  unfold pop.
  repeat first [apply quiet_swap | apply quiet_downheap | quiet_step].
Qed.

End Steps.

(** ** The heap property along the two recursions *)

Section Order.

Context {T : Type} (comp : T -> T -> bool) `{!StrictWeakOrdering comp}.
Implicit Types (l : list T) (i a b k : N) (x y p lc rc : T).

Lemma comp_asym x y : comp x y = true -> comp y x = false.
Proof.
  intros H. destruct (comp y x) eqn:E; [| reflexivity].
  pose proof (swo_trans _ _ _ H E) as F. now rewrite swo_irrefl in F.
Qed.

Lemma comp_negtrans x y z :
  comp x y = false -> comp y z = false -> comp x z = false.
Proof.
  intros Hxy Hyz. destruct (comp x z) eqn:Hxz; [| reflexivity].
  destruct (comp y x) eqn:Hyx.
  { now rewrite (swo_trans _ _ _ Hyx Hxz) in Hyz. }
  destruct (comp z y) eqn:Hzy.
  { now rewrite (swo_trans _ _ _ Hxz Hzy) in Hxy. }
  destruct (swo_incomp _ _ _ Hxy Hyx Hyz Hzy) as [F _]. congruence.
Qed.

Lemma comp_lt_le x y z :
  comp x y = true -> comp x z = false -> comp y z = false.
Proof.
  intros Hxy Hxz. destruct (comp y z) eqn:E; [| reflexivity].
  now rewrite (swo_trans _ _ _ Hxy E) in Hxz.
Qed.

(** where no child ties with the node, the guard of line 83 is the stop
    condition of the specification *)
Lemma stop_conditions_agree x lc rc :
  comp x lc = true \/ comp lc x = true ->
  comp x rc = true \/ comp rc x = true ->
  no_child_higher comp x lc rc = comp rc x && comp lc x.
Proof.
  unfold no_child_higher.
  intros [Hl | Hl] [Hr | Hr];
    rewrite ?Hl, ?Hr, ?(comp_asym _ _ Hl), ?(comp_asym _ _ Hr); cbn;
    rewrite ?andb_false_r; reflexivity.
Qed.

Lemma up_root l : heap_but_up comp l 0 -> heap_property comp l.
Proof. intros [H1 _] i x y Hi. apply H1; lia. Qed.

Lemma up_stop l k p x :
  0 < k -> get l ((k - 1) / 2) = Some p -> get l k = Some x ->
  comp p x = false -> heap_but_up comp l k -> heap_property comp l.
Proof.
  intros Hk Hp Hx Hc [H1 _] i xi yi Hi Hgi Hgp.
  destruct (N.eq_dec i k) as [-> | Ne]; [congruence | eauto].
Qed.

Lemma up_move l k p x :
  0 < k -> get l ((k - 1) / 2) = Some p -> get l k = Some x ->
  comp p x = true -> heap_but_up comp l k ->
  heap_but_up comp (exchange l ((k - 1) / 2) k) ((k - 1) / 2).
Proof.
  intros Hk Hp Hx Hc [H1 H2]. split.
  - intros i xi yi Hi Hne. rewrite !(get_exchange l _ _ p x) by assumption.
    destruct (N.eqb_spec i k) as [-> | Nk].
    + rewrite N.eqb_refl. destruct (N.eqb_spec ((k - 1) / 2) k); [lia |].
      intros [= <-] [= <-]. now apply comp_asym.
    + destruct (N.eqb_spec i ((k - 1) / 2)); [lia |]. intros Hgi.
      destruct (N.eqb_spec ((i - 1) / 2) k) as [E | NE].
      * intros [= <-]. eapply (H2 i); eauto.
      * destruct (N.eqb_spec ((i - 1) / 2) ((k - 1) / 2)) as [E' | NE'].
        -- intros [= <-]. apply (comp_lt_le p); [assumption |].
           apply (H1 i); auto. now rewrite E'.
        -- intros Hgp. eapply (H1 i); eauto.
  - intros i xi yi Hi Hpk Hpar.
    rewrite !(get_exchange l _ _ p x) by assumption.
    destruct (N.eqb_spec (((k - 1) / 2 - 1) / 2) k); [lia |].
    destruct (N.eqb_spec (((k - 1) / 2 - 1) / 2) ((k - 1) / 2)); [lia |].
    intros Hgi Hgp.
    assert (comp yi p = false) as Hyp by (apply (H1 ((k - 1) / 2)); auto; lia).
    destruct (N.eqb_spec i k) as [-> | Nk]; [congruence |].
    destruct (N.eqb_spec i ((k - 1) / 2)); [lia |].
    apply (comp_negtrans _ p); [assumption |].
    apply (H1 i); auto. now rewrite Hpar.
Qed.

Lemma down_leaf l k :
  len l <= 2 * k + 1 -> heap_but_down comp l k -> heap_property comp l.
Proof.
  intros Hl [H1 _] i xi yi Hi Hgi Hgp.
  destruct (N.eq_dec ((i - 1) / 2) k) as [E | NE]; [| eauto].
  apply get_lt in Hgi. lia.
Qed.

Lemma down_stop l k x :
  get l k = Some x ->
  (forall i xi, 0 < i -> (i - 1) / 2 = k -> get l i = Some xi ->
                comp x xi = false) ->
  heap_but_down comp l k -> heap_property comp l.
Proof.
  intros Hx Hc [H1 _] i xi yi Hi Hgi Hgp.
  destruct (N.eq_dec ((i - 1) / 2) k) as [E | NE]; [| eauto].
  rewrite E, Hx in Hgp. injection Hgp as <-. eauto.
Qed.

Lemma down_move l k j x w :
  j = 2 * k + 1 \/ j = 2 * k + 2 ->
  get l k = Some x -> get l j = Some w -> comp w x = false ->
  (forall i xi, 0 < i -> (i - 1) / 2 = k -> i <> j -> get l i = Some xi ->
                comp w xi = false) ->
  heap_but_down comp l k -> heap_but_down comp (exchange l k j) j.
Proof.
  intros Hj Hx Hw Hc Hs [H1 H2]. split.
  - intros i xi yi Hi Hne. rewrite !(get_exchange l _ _ x w) by assumption.
    destruct (N.eqb_spec i j) as [-> | Nj].
    + destruct (N.eqb_spec ((j - 1) / 2) j); [lia |].
      destruct (N.eqb_spec ((j - 1) / 2) k); [| lia].
      now intros [= <-] [= <-].
    + destruct (N.eqb_spec i k) as [-> | Nk].
      * destruct (N.eqb_spec ((k - 1) / 2) j); [lia |].
        destruct (N.eqb_spec ((k - 1) / 2) k); [lia |].
        intros [= <-] Hgp. apply (H2 j); auto; lia.
      * destruct (N.eqb_spec ((i - 1) / 2) j); [lia |].
        destruct (N.eqb_spec ((i - 1) / 2) k) as [E | NE].
        -- intros Hgi [= <-]. eapply Hs; eauto.
        -- intros Hgi Hgp. eapply (H1 i); eauto.
  - intros i xi yi Hi Hpj Hpar.
    rewrite !(get_exchange l _ _ x w) by assumption.
    destruct (N.eqb_spec i j); [lia |]. destruct (N.eqb_spec i k); [lia |].
    destruct (N.eqb_spec ((j - 1) / 2) j); [lia |].
    destruct (N.eqb_spec ((j - 1) / 2) k); [| lia].
    intros Hgi [= <-]. apply (H1 i); auto; [lia |]. now rewrite Hpar.
Qed.

Lemma upheap_heap fuel k s s' :
  fits (c s) -> k < len (c s) ->
  upheap comp fuel k s = Ok tt s' ->
  heap_but_up comp (c s) k -> heap_property comp (c s').
Proof.
  revert k s. induction fuel as [| fuel IH]; intros k s Hfit Hk E Hinv;
    [discriminate |].
  rewrite upheap_step in E. cbv zeta in E.
  destruct (N.eqb_spec k 0) as [-> | Nz].
  { injection E as <-. now apply up_root. }
  assert (k < SizeT.modulus) as Hm
    by (unfold fits, SizeT.max_size, SizeT.modulus in *; lia).
  rewrite parent_small in * by lia.
  destruct (get (c s) ((k - 1) / 2)) as [p |] eqn:Ep; [| discriminate].
  destruct (get (c s) k) as [x |] eqn:Ex; [| discriminate].
  destruct (comp p x) eqn:Ec.
  - apply IH in E; [assumption | | |]; cbn [c].
    + unfold fits in *. now rewrite len_exchange.
    + rewrite len_exchange. lia.
    + apply (up_move _ _ p x); auto; lia.
  - injection E as <-. apply (up_stop _ k p x); auto; lia.
Qed.

Lemma downheap_heap fuel k s s' :
  fits (c s) -> k <= len (c s) ->
  downheap comp fuel k s = Ok tt s' ->
  heap_but_down comp (c s) k -> heap_property comp (c s').
Proof.
  revert k s. induction fuel as [| fuel IH]; intros k s Hfit Hk E Hinv;
    [discriminate |].
  assert (left_child k = 2 * k + 1) as EL
    by (apply left_child_small; unfold fits in Hfit; lia).
  destruct (N.le_gt_cases (len (c s)) (left_child k)) as [HL | HL].
  { rewrite downheap_leaf in E by assumption. injection E as <-.
    cbn [c entered]. apply (down_leaf _ k); [lia | assumption]. }
  assert (right_child k = 2 * k + 2) as ER
    by (apply right_child_small; unfold fits in Hfit; lia).
  destruct (get_some (c s) k) as [x Ex]; [lia |].
  destruct (get_some (c s) (left_child k)) as [l El]; [lia |].
  assert (forall j w, j = 2 * k + 1 \/ j = 2 * k + 2 ->
            get (c s) j = Some w -> comp w x = false ->
            (forall i xi, 0 < i -> (i - 1) / 2 = k -> i <> j ->
                          get (c s) i = Some xi -> comp w xi = false) ->
            downheap comp fuel j
              (swapped k j (entered (Call_downheap k (len (c s))) s))
            = Ok tt s' -> heap_property comp (c s')) as Hrec.
  { intros j w Hj Hw Hwx Hsib E'. pose proof (get_lt _ _ _ Hw) as Hjl.
    apply IH in E'; [assumption | | |]; cbn [c swapped entered].
    - unfold fits in *. now rewrite len_exchange.
    - rewrite len_exchange. lia.
    - now apply (down_move _ k j x w). }
  destruct (N.le_gt_cases (len (c s)) (right_child k)) as [HR | HR].
  - rewrite (downheap_left_only comp fuel k s x l) in E by assumption.
    cbv zeta in E. destruct (comp x l) eqn:Ec.
    + apply (Hrec (left_child k) l); [lia | exact El | now apply comp_asym | | exact E].
      intros i xi Hi Hpar Hne Hgi. apply get_lt in Hgi. lia.
    + injection E as <-. cbn [c entered]. apply (down_stop _ k x); auto.
      intros i xi Hi Hpar Hgi. pose proof (get_lt _ _ _ Hgi).
      assert (i = left_child k) as -> by lia. congruence.
  - destruct (get_some (c s) (right_child k)) as [r Er]; [lia |].
    rewrite (downheap_both comp fuel k s x l r) in E by assumption.
    cbv zeta in E.
    assert (forall i xi, 0 < i -> (i - 1) / 2 = k -> get (c s) i = Some xi ->
              xi = l /\ i = left_child k \/ xi = r /\ i = right_child k)
      as Hkids.
    { intros i xi Hi Hpar Hgi.
      assert (i = left_child k \/ i = right_child k) as [-> | ->] by lia;
        [left | right]; split; congruence. }
    destruct (comp r x && comp l x) eqn:Eb.
    + injection E as <-. apply andb_prop in Eb as [Erx Elx].
      cbn [c entered]. apply (down_stop _ k x); auto.
      intros i xi Hi Hpar Hgi.
      destruct (Hkids i xi Hi Hpar Hgi) as [[-> _] | [-> _]];
        now apply comp_asym.
    + apply andb_false_iff in Eb. destruct (comp r l) eqn:Erl.
      * apply (Hrec (left_child k) l); [lia | exact El | | | exact E].
        -- destruct (comp l x) eqn:Elx; [| reflexivity].
           destruct Eb as [Eb | Eb]; [| discriminate].
           now rewrite (swo_trans _ _ _ Erl Elx) in Eb.
        -- intros i xi Hi Hpar Hne Hgi.
           destruct (Hkids i xi Hi Hpar Hgi) as [[_ ->] | [-> _]];
             [congruence | now apply comp_asym].
      * apply (Hrec (right_child k) r); [lia | exact Er | | | exact E].
        -- destruct Eb as [Eb | Eb]; [assumption |].
           now apply (comp_negtrans _ l).
        -- intros i xi Hi Hpar Hne Hgi.
           destruct (Hkids i xi Hi Hpar Hgi) as [[-> _] | [_ ->]];
             [assumption | congruence].
Qed.

Lemma push_heap v s s' :
  len (c s) < SizeT.max_size ->
  push comp v s = Ok tt s' ->
  heap_property comp (c s) -> heap_property comp (c s').
Proof.
  intros Hlen E Hheap.
  assert (len (c s) < SizeT.modulus) as Hm
    by (unfold SizeT.max_size, SizeT.modulus in *; lia).
  rewrite push_unfold, push_index in E by exact Hm.
  apply upheap_heap in E; [assumption | | |]; cbn [c].
  - unfold fits. rewrite len_snoc. lia.
  - rewrite len_snoc. lia.
  - split.
    + intros i x y Hi Hne Hgi Hgp. pose proof (get_lt _ _ _ Hgi) as Hl.
      rewrite len_snoc in Hl. rewrite get_snoc in Hgi, Hgp.
      destruct (N.ltb_spec i (len (c s))); [| lia].
      destruct (N.ltb_spec ((i - 1) / 2) (len (c s))); [| lia].
      eapply Hheap; eauto.
    + intros i x y Hi Hk Hpar Hgi _. apply get_lt in Hgi.
      rewrite len_snoc in Hgi. lia.
Qed.

Lemma pop_heap s s' :
  fits (c s) -> 0 < len (c s) ->
  pop comp s = Ok tt s' ->
  heap_property comp (c s) -> heap_property comp (c s').
Proof.
  intros Hfit Hpos E Hheap.
  destruct (get_some (c s) 0) as [x Hx]; [lia |].
  destruct (get_some (c s) (len (c s) - 1)) as [y Hy]; [lia |].
  rewrite (pop_unfold comp s x y) in E by
    (try assumption; unfold fits, SizeT.max_size, SizeT.modulus in *; lia).
  cbv zeta in E. unfold bind in E.
  match type of E with
  | match ?d with _ => _ end = _ => destruct d as [[] s1 | |] eqn:Ed
  end; try discriminate.
  unfold emit in E. injection E as <-. cbn [c].
  apply downheap_heap in Ed; [assumption | | |]; cbn [c].
  - unfold fits in *. rewrite len_removelast, len_exchange. lia.
  - lia.
  - split; [| intros; lia].
    intros i xi yi Hi Hne. rewrite !get_removelast, len_exchange.
    destruct (N.ltb_spec (i + 1) (len (c s))); [| discriminate].
    destruct (N.ltb_spec ((i - 1) / 2 + 1) (len (c s))); [| discriminate].
    rewrite !(get_exchange _ _ _ x y) by assumption.
    destruct (N.eqb_spec i (len (c s) - 1)); [lia |].
    destruct (N.eqb_spec i 0); [lia |].
    destruct (N.eqb_spec ((i - 1) / 2) (len (c s) - 1)); [lia |].
    destruct (N.eqb_spec ((i - 1) / 2) 0); [lia |].
    intros Hgi Hgp. eapply Hheap; eauto.
Qed.

(** the root of a heap has the highest priority *)
Lemma root_max l r :
  heap_property comp l -> get l 0 = Some r ->
  forall i x, get l i = Some x -> comp r x = false.
Proof.
  intros Hheap Hr i. induction (N.lt_wf_0 i) as [i _ IH]. intros x Hx.
  destruct (N.eq_dec i 0) as [-> | Nz].
  { rewrite Hr in Hx. injection Hx as <-. apply swo_irrefl. }
  pose proof (get_lt _ _ _ Hx) as Hl.
  destruct (get_some l ((i - 1) / 2)) as [y Hy]; [lia |].
  apply (comp_negtrans _ y).
  - apply (IH ((i - 1) / 2)); [lia | assumption].
  - apply (Hheap i); auto; lia.
Qed.

Lemma run_heap ops s :
  pops_nonempty (length (c s)) ops = true ->
  N.of_nat (length (c s) + length ops) <= SizeT.max_size ->
  heap_property comp (c s) ->
  exists s', run comp ops s = Ok tt s' /\ heap_property comp (c s').
Proof.
  revert s. induction ops as [| [v |] rest IH]; intros s Hne Hb Hheap.
  - now exists s.
  - destruct (push_ok comp v s) as [s1 [E P]].
    assert (heap_property comp (c s1)) as H1.
    { apply (push_heap v s); auto. cbn [length] in Hb. unfold len. lia. }
    apply Permutation_length in P. cbn [length] in P.
    cbn [run]. unfold bind. rewrite E. apply IH; auto.
    + now rewrite <- P.
    + cbn [length] in Hb. lia.
  - cbn [pops_nonempty] in Hne.
    destruct (length (c s)) as [| m] eqn:Hlen; [discriminate |].
    assert (fits (c s)) as Hfit by (unfold fits, len; lia).
    assert (0 < len (c s)) as Hpos by (unfold len; lia).
    destruct (pop_ok comp s Hfit Hpos) as [s1 [x [E [_ P]]]].
    assert (heap_property comp (c s1)) as H1 by now apply (pop_heap s).
    apply Permutation_length in P. cbn [length] in P.
    cbn [run]. unfold bind. rewrite E. apply IH; auto.
    + replace (length (c s1)) with m by lia. exact Hne.
    + cbn [length] in Hb. lia.
Qed.

Lemma run_pushes (q : list T) s :
  N.of_nat (length (c s) + length q) <= SizeT.max_size ->
  heap_property comp (c s) ->
  exists s', run comp (map Push q) s = Ok tt s' /\
             heap_property comp (c s') /\ Permutation (c s ++ q) (c s').
Proof.
  revert s. induction q as [| v q IH]; intros s Hb Hheap.
  - exists s. rewrite app_nil_r. now repeat split.
  - destruct (push_ok comp v s) as [s1 [E P]].
    assert (heap_property comp (c s1)) as H1.
    { apply (push_heap v s); auto. cbn [length] in Hb. unfold len. lia. }
    pose proof (Permutation_length P) as PL. cbn [length] in PL, Hb.
    destruct (IH s1) as [s' [E' [H' P']]]; [lia | assumption |].
    exists s'. cbn [map run]. unfold bind. rewrite E.
    repeat split; [exact E' | exact H' |].
    rewrite <- P', <- P. cbn [app]. symmetry. apply Permutation_middle.
Qed.

Lemma drain_sorted n s :
  fits (c s) -> length (c s) = n -> heap_property comp (c s) ->
  exists out s', drain comp n s = Ok out s' /\ c s' = [] /\
                 Permutation (c s) out /\
                 StronglySorted (fun u w => comp u w = false) out.
Proof.
  revert s. induction n as [| n IH]; intros s Hfit Hlen Hheap.
  - exists [], s. apply length_zero_iff_nil in Hlen. rewrite Hlen.
    repeat split; constructor.
  - assert (0 < len (c s)) as Hpos by (unfold len; lia).
    destruct (pop_ok comp s Hfit Hpos) as [s1 [x [E [Hx P]]]].
    assert (heap_property comp (c s1)) as H1 by now apply (pop_heap s).
    pose proof (Permutation_length P) as PL. cbn [length] in PL.
    destruct (IH s1) as [out [s' [E' [Hnil [P' Hs]]]]];
      [unfold fits, len in *; lia | lia | assumption |].
    exists (x :: out), s'. cbn [drain]. unfold bind, top, c_at.
    fold (get (c s) 0). rewrite Hx, E, E'.
    repeat split; [assumption | etransitivity; [exact P | now apply perm_skip] |].
    constructor; [assumption |]. apply Forall_forall. intros w Hw.
    rewrite <- P' in Hw.
    assert (w ∈ c s) as Hin by (rewrite P; now right).
    apply list_elem_of_lookup in Hin as [i Hi].
    apply (root_max (c s) x Hheap Hx (N.of_nat i)).
    unfold get. now rewrite Nat2N.id.
Qed.

End Order.

(** ** The orderings of main.cpp *)

#[export] Instance less_swo : StrictWeakOrdering less.
Proof.
  unfold less. constructor; intros *; rewrite ?Z.ltb_lt, ?Z.ltb_ge; lia.
Qed.

#[export] Instance greater_swo : StrictWeakOrdering greater.
Proof.
  unfold greater. constructor; intros *;
    rewrite ?Z.gtb_ltb, ?Z.ltb_lt, ?Z.ltb_ge; lia.
Qed.

#[export] Instance by_priority_swo : StrictWeakOrdering by_priority.
Proof.
  unfold by_priority. constructor; intros *; rewrite ?Z.ltb_lt, ?Z.ltb_ge; lia.
Qed.

(** the heap property does need an ordering: with a comparison that is
    always true, two pushes already break it *)
Remark heap_property_needs_ordering :
  exists s', run (fun _ _ : Z => true) [Push 1; Push 2]%Z init = Ok tt s' /\
             ~ heap_property (fun _ _ : Z => true) (c s').
Proof.
  eexists. split; [reflexivity |]. intros H.
  specialize (H 1 1%Z 2%Z eq_refl eq_refl eq_refl). discriminate H.
Qed.

Lemma descending_sorted n :
  StronglySorted (fun u w => less u w = false) (rev (map Z.of_nat (seq 1 n))).
Proof.
  induction n as [| n IH]; [constructor |].
  rewrite seq_S, map_app, rev_app_distr. cbn [map rev app].
  constructor; [assumption |]. apply Forall_forall. intros w Hw.
  apply list_elem_of_In, in_rev, in_map_iff in Hw as [m [<- Hm]].
  apply in_seq in Hm. unfold less. apply Z.ltb_ge. lia.
Qed.

Lemma ascending_sorted a n :
  StronglySorted (fun u w => greater u w = false) (map Z.of_nat (seq a n)).
Proof.
  revert a. induction n as [| n IH]; intros a; [constructor |].
  cbn [seq map]. constructor; [apply IH |]. apply Forall_forall. intros w Hw.
  apply list_elem_of_In, in_map_iff in Hw as [m [<- Hm]].
  apply in_seq in Hm. unfold greater. rewrite Z.gtb_ltb. apply Z.ltb_ge. lia.
Qed.

#[export] Instance less_antisym :
  AntiSymm (=) (fun u w : Z => less u w = false).
Proof. intros u w. unfold less. rewrite !Z.ltb_ge. lia. Qed.

#[export] Instance greater_antisym :
  AntiSymm (=) (fun u w : Z => greater u w = false).
Proof. intros u w. unfold greater. rewrite !Z.gtb_ltb, !Z.ltb_ge. lia. Qed.

Lemma push_then_drain_sorted {T} (comp : T -> T -> bool)
  `{!StrictWeakOrdering comp} (q : list T) :
  N.of_nat (length q) <= SizeT.max_size ->
  exists out, result (push_then_drain comp q (length q)) = Some out /\
              Permutation q out /\
              StronglySorted (fun u w => comp u w = false) out.
Proof.
  intros Hb.
  destruct (run_pushes comp q init) as [s1 [E [Hheap P]]].
  - cbn [c init length]. lia.
  - intros i x y _ Hx. discriminate Hx.
  - cbn [c init app] in P. pose proof (Permutation_length P) as PL.
    destruct (drain_sorted comp (length q) s1) as [out [s' [E' [_ [P' Hs]]]]].
    + unfold fits, len. lia.
    + now rewrite PL.
    + assumption.
    + exists out. unfold push_then_drain, bind. rewrite E, E'.
      repeat split; [| assumption]. now rewrite P.
Qed.

Lemma pop_of_last {T} (comp : T -> T -> bool) (x : T) (t : list event) :
  pop comp (mkState [x] t) =
    Ok tt (mkState [] ((((t ++ [Out_replacing x x]) ++ [Call_swap 0 0])
                          ++ [Call_downheap 0 0]) ++ [Out_finished])).
Proof. reflexivity. Qed.

(** * The claims *)

(** C1, as the code has it: [top()] and [pop()] make no emptiness check.
    On a heap of size 0 both go straight to the out-of-range access
    [c[0]], which is undefined behaviour in C++; no [EmptyContainer]
    signal is raised. *)
Theorem top_pop_on_empty_read_out_of_bounds {T} (comp : T -> T -> bool)
  (t : list event) :
  top (mkState [] t) = Fault (OutOfBounds 0) /\
  pop comp (mkState [] t) = Fault (OutOfBounds 0) /\
  never_faults_with EmptyContainer (@top T) /\
  never_faults_with EmptyContainer (pop comp) /\
  (forall v, never_faults_with EmptyContainer (push comp v)).
Proof.
  repeat split; [apply quiet_top | apply quiet_pop | apply quiet_push].
Qed.

(** C1 as stated fails on a freshly constructed heap of integers:
    neither [top()] nor [pop()] signals [EmptyContainer], both read
    [c[0]] out of bounds. *)
Lemma empty_container_is_not_signalled :
  top (@init Z) = Fault (OutOfBounds 0) /\
  top (@init Z) <> Fault EmptyContainer /\
  pop less init = Fault (OutOfBounds 0) /\
  pop less init <> Fault EmptyContainer.
Proof. repeat split; discriminate. Qed.

(** C2: after every sequence of [push] and [pop] calls from an empty heap
    in which each [pop] finds the heap non-empty, the calls all return and
    for every non-root index [i], [comp (c[(i-1)/2]) (c[i])] is false.
    [comp] is a strict weak ordering, as the data model requires, and the
    sequence is no longer than [max_size()]. *)
Theorem heap_property_after_operations {T} (comp : T -> T -> bool)
  `{!StrictWeakOrdering comp} (ops : list op) :
  pops_nonempty 0 ops = true ->
  N.of_nat (length ops) <= SizeT.max_size ->
  exists s', run comp ops init = Ok tt s' /\
             forall i x y, 0 < i -> get (c s') i = Some x ->
                           get (c s') ((i - 1) / 2) = Some y ->
                           comp y x = false.
Proof.
  intros Hne Hb. apply (run_heap comp ops init); auto.
  intros i x y _ Hx. discriminate Hx.
Qed.

Lemma heap_property_after_operations_witness :
  let ops := [Push 3; Push 5; Pop; Push 1; Push 4; Push 4]%Z in
  pops_nonempty 0 ops = true /\
  N.of_nat (length ops) <= SizeT.max_size /\
  exists s', run less ops init = Ok tt s' /\
             forall i x y, 0 < i -> get (c s') i = Some x ->
                           get (c s') ((i - 1) / 2) = Some y ->
                           less y x = false.
Proof.
  assert (N.of_nat 6 <= SizeT.max_size) as Hb by (vm_compute; discriminate).
  split; [reflexivity |]. split; [exact Hb |].
  apply (heap_property_after_operations less); [reflexivity | exact Hb].
Defined.

(** C3, as the code has it: at a node with both children, [downheap]
    stops with no exchange when both children have strictly lower
    priority than the node ([comp child node] for both); otherwise it
    exchanges the node with the right child unless the left child is
    strictly higher-priority than the right child, in which case it
    exchanges with the left child, and continues from that child. *)
Theorem downheap_at_node_with_two_children {T} (comp : T -> T -> bool)
  (fuel : nat) (k : N) (s : state) (x l r : T) :
  right_child k < len (c s) ->
  get (c s) k = Some x -> get (c s) (left_child k) = Some l ->
  get (c s) (right_child k) = Some r ->
  downheap comp (S fuel) k s =
    let s1 := entered (Call_downheap k (len (c s))) s in
    if comp r x && comp l x then Ok tt s1
    else if comp r l
         then downheap comp fuel (left_child k) (swapped k (left_child k) s1)
         else downheap comp fuel (right_child k) (swapped k (right_child k) s1).
Proof. apply downheap_both. Qed.

Lemma downheap_at_node_with_two_children_witness :
  let s := mkState [1; 7; 9; 4]%Z [] in
  right_child 0 < len (c s) /\
  get (c s) 0 = Some 1%Z /\ get (c s) (left_child 0) = Some 7%Z /\
  get (c s) (right_child 0) = Some 9%Z /\
  downheap less 2 0 s =
    downheap less 1 2 (swapped 0 2 (entered (Call_downheap 0 4) s)).
Proof.
  refine (conj _ (conj _ (conj _ (conj _ _)))); [reflexivity .. |].
  apply (downheap_at_node_with_two_children less 1 0
           (mkState [1; 7; 9; 4]%Z []) 1%Z 7%Z 9%Z); reflexivity.
Defined.

(** C3 as stated fails where a child ties with the node: with three
    elements of priority 5, no child has strictly higher priority than the
    root, and [downheap(0)] still exchanges the root with its right
    child. *)
Lemma downheap_exchanges_on_a_tie :
  let s := mkState [(5, 0%nat); (5, 1%nat); (5, 2%nat)]%Z [] in
  no_child_higher by_priority (5, 0%nat)%Z (5, 1%nat)%Z (5, 2%nat)%Z = true /\
  downheap by_priority 2 0 s =
    Ok tt (mkState [(5, 2%nat); (5, 1%nat); (5, 0%nat)]%Z
             [Call_downheap 0 3; Call_swap 0 2; Call_downheap 2 3]) /\
  downheap by_priority 2 0 s <> Ok tt (entered (Call_downheap 0 3) s).
Proof. repeat split. discriminate. Qed.

(** C4: every permutation of 1..n pushed into a heap with the default
    ordering comes out of n [top()]/[pop()] rounds as n, n-1, ..., 1, and
    with the inverse ordering as 1, 2, ..., n; main.cpp, which pushes
    0..9 in increasing order, prints 9, 8, ..., 0 for its max-priority
    queue and 0, 1, ..., 9 for its min-priority queue. *)
Theorem sorted_extraction (n : nat) (q : list Z) :
  N.of_nat n <= SizeT.max_size ->
  Permutation q (map Z.of_nat (seq 1 n)) ->
  result (push_then_drain less q n) = Some (rev (map Z.of_nat (seq 1 n))) /\
  result (push_then_drain greater q n) = Some (map Z.of_nat (seq 1 n)) /\
  result (push_then_loop less [0; 1; 2; 3; 4; 5; 6; 7; 8; 9]%Z 11)
    = Some [9; 8; 7; 6; 5; 4; 3; 2; 1; 0]%Z /\
  result (push_then_loop greater [0; 1; 2; 3; 4; 5; 6; 7; 8; 9]%Z 11)
    = Some [0; 1; 2; 3; 4; 5; 6; 7; 8; 9]%Z.
Proof.
  intros Hb Hperm.
  assert (length q = n) as Hlen
    by (rewrite (Permutation_length Hperm), length_map; apply length_seq).
  split; [| split; [| split; reflexivity]].
  - destruct (push_then_drain_sorted less q) as [out [E [P Hs]]];
      [now rewrite Hlen |].
    rewrite Hlen in E. rewrite E. f_equal.
    apply (StronglySorted_unique (fun u w => less u w = false));
      [assumption | apply descending_sorted |].
    rewrite <- P, Hperm. apply Permutation_rev.
  - destruct (push_then_drain_sorted greater q) as [out [E [P Hs]]];
      [now rewrite Hlen |].
    rewrite Hlen in E. rewrite E. f_equal.
    apply (StronglySorted_unique (fun u w => greater u w = false));
      [assumption | apply ascending_sorted |].
    now rewrite <- P, Hperm.
Qed.

Lemma sorted_extraction_witness :
  N.of_nat 4 <= SizeT.max_size /\
  Permutation [3; 1; 4; 2]%Z (map Z.of_nat (seq 1 4)) /\
  result (push_then_drain less [3; 1; 4; 2]%Z 4) = Some [4; 3; 2; 1]%Z /\
  result (push_then_drain greater [3; 1; 4; 2]%Z 4) = Some [1; 2; 3; 4]%Z.
Proof.
  assert (N.of_nat 4 <= SizeT.max_size) as Hb by (vm_compute; discriminate).
  assert (Permutation [3; 1; 4; 2]%Z (map Z.of_nat (seq 1 4))) as Hp.
  { cbn. apply (Permutation_cons_app [1; 2]%Z [4]%Z).
    apply perm_skip. apply perm_swap. }
  split; [exact Hb |]. split; [exact Hp |].
  destruct (sorted_extraction 4 [3; 1; 4; 2]%Z Hb Hp) as [H1 [H2 _]].
  split; [exact H1 | exact H2].
Defined.

(** C5: after a sequence of k [push] and j [pop] calls from an empty
    heap, each [pop] finding the heap non-empty, j <= k and [size()]
    returns k - j; and in every state [empty()] returns true exactly when
    [size()] returns 0. *)
Theorem size_accounting {T} (comp : T -> T -> bool) (ops : list op) :
  pops_nonempty 0 ops = true ->
  N.of_nat (length ops) <= SizeT.max_size ->
  exists s', run comp ops init = Ok tt s' /\
             (pops ops <= pushes ops)%nat /\
             size s' = Ok (N.of_nat (pushes ops - pops ops)) s' /\
             forall s : @state T,
             exists b n, empty s = Ok b s /\ size s = Ok n s /\
                         (b = true <-> n = 0).
Proof.
  intros Hne Hb. destruct (run_ok comp ops init) as [s' [E Hc]]; auto.
  cbn [c init length] in Hc. exists s'.
  split; [exact E |]. split; [lia |]. split.
  - unfold size, c_size. do 2 f_equal. lia.
  - intros s. exists (len (c s) =? 0), (len (c s)).
    repeat split; [apply N.eqb_eq | apply N.eqb_eq].
Qed.

Lemma size_accounting_witness :
  let ops := [Push 3; Push 5; Pop; Push 1; Pop; Push 4]%Z in
  pops_nonempty 0 ops = true /\
  N.of_nat (length ops) <= SizeT.max_size /\
  exists s', run less ops init = Ok tt s' /\ size s' = Ok 2 s'.
Proof.
  assert (N.of_nat 6 <= SizeT.max_size) as Hb by (vm_compute; discriminate).
  split; [reflexivity |]. split; [exact Hb |].
  destruct (size_accounting less
              [Push 3; Push 5; Pop; Push 1; Pop; Push 4]%Z eq_refl Hb)
    as [s' [E [_ [Hs _]]]].
  exists s'. split; [exact E | exact Hs].
Defined.

(** C6, as the code has it: popping the last remaining element returns
    with the heap empty and without any out-of-range access; [pop] has no
    emptiness test after [pop_back()], so [downheap(0)] is invoked on the
    empty sequence, where it returns at its leaf test before touching an
    element. *)
Theorem pop_of_the_last_element {T} (comp : T -> T -> bool) (x : T)
  (t : list event) :
  pop comp (mkState [x] t) =
    Ok tt (mkState [] (t ++ [Out_replacing x x; Call_swap 0 0;
                             Call_downheap 0 0; Out_finished])).
Proof.
  rewrite pop_of_last. now rewrite <- !app_assoc.
Qed.

(** C6 as stated fails on the heap that holds the single integer 5:
    [pop()] does invoke [downheap], with index 0 on a container of size
    0. *)
Lemma last_pop_calls_downheap :
  exists s', pop less (mkState [5%Z] []) = Ok tt s' /\ c s' = [] /\
             In (Call_downheap 0 0) (trace s').
Proof.
  eexists. split; [reflexivity |]. split; [reflexivity |].
  cbn. auto.
Qed.

(** C7: every operation returns on every state that satisfies its
    precondition, and both recursions are well-founded: [upheap] moves to
    a strictly smaller index and returns for every index below the fuel,
    [downheap] moves to a strictly larger one and returns whenever the
    fuel covers the distance to the end of the container. *)
Theorem operations_terminate {T} (comp : T -> T -> bool) (s : state)
  (v : T) :
  fits (c s) ->
  (exists b, empty s = Ok b s) /\
  (exists n, size s = Ok n s) /\
  (exists s', push comp v s = Ok tt s') /\
  (0 < len (c s) ->
   (exists x, top s = Ok x s) /\ (exists s', pop comp s = Ok tt s')) /\
  (forall k, 0 < k -> k < SizeT.modulus -> parent k < k) /\
  (forall k, k < len (c s) -> left_child k < len (c s) ->
             k < left_child k /\ left_child k < right_child k) /\
  (forall fuel k, k < len (c s) -> (N.to_nat k < fuel)%nat ->
                  exists s', upheap comp fuel k s = Ok tt s') /\
  (forall fuel k, k <= len (c s) -> len (c s) < k + N.of_nat fuel ->
                  exists s', downheap comp fuel k s = Ok tt s').
Proof.
  intros Hfit.
  assert (len (c s) < SizeT.modulus) as Hm
    by (unfold fits, SizeT.max_size, SizeT.modulus in *; lia).
  repeat split.
  - now eexists.
  - now eexists.
  - destruct (push_ok comp v s) as [s' [E _]]. now exists s'.
  - destruct (get_some (c s) 0) as [x Hx]; [assumption |].
    exists x. unfold top, c_at. fold (get (c s) 0). now rewrite Hx.
  - destruct (pop_ok comp s) as [s' [x [E _]]]; auto. now exists s'.
  - intros k Hk Hl. now apply parent_lt.
  - rewrite left_child_small by (unfold fits in Hfit; lia). lia.
  - rewrite left_child_small, right_child_small
      by (unfold fits in Hfit; lia). lia.
  - intros fuel k Hk Hf.
    destruct (upheap_ok comp fuel k s) as [s' [E _]]; auto; [lia |].
    now exists s'.
  - intros fuel k Hk Hf.
    destruct (downheap_ok comp fuel k s) as [s' [E _]]; auto.
    now exists s'.
Qed.

Lemma operations_terminate_witness :
  let s := mkState [9; 4; 7; 1]%Z [] in
  fits (c s) /\ 0 < len (c s) /\
  (exists s', push less 8%Z s = Ok tt s') /\
  (exists x, top s = Ok x s) /\ (exists s', pop less s = Ok tt s').
Proof.
  assert (fits [9; 4; 7; 1]%Z) as Hfit by (vm_compute; discriminate).
  assert (0 < len [9; 4; 7; 1]%Z) as Hpos by reflexivity.
  destruct (operations_terminate less (mkState [9; 4; 7; 1]%Z []) 8%Z Hfit)
    as [_ [_ [Hpush [Hpop _]]]].
  split; [exact Hfit |]. split; [exact Hpos |]. split; [exact Hpush |].
  exact (Hpop Hpos).
Defined.

(** C8: on an empty heap, [top()] right after [push(x)] returns [x], and
    [push(x)] followed by [pop()] leaves the container empty. *)
Theorem single_element_round_trip {T} (comp : T -> T -> bool) (x : T)
  (t : list event) :
  exists s1, push comp x (mkState [] t) = Ok tt s1 /\
             top s1 = Ok x s1 /\
             exists s2, pop comp s1 = Ok tt s2 /\ c s2 = [] /\
                        empty s2 = Ok true s2.
Proof.
  eexists. split; [reflexivity |]. split; [reflexivity |].
  eexists. split; [apply pop_of_last |]. split; reflexivity.
Qed.

(** C9: [push(v)] adds one occurrence of [v] to the multiset of stored
    elements and [pop()] on a non-empty heap removes one occurrence of
    the former root; [upheap] and [downheap] only permute the stored
    elements. *)
Theorem multiset_preserved {T} (comp : T -> T -> bool) (s : state) (v : T) :
  fits (c s) ->
  (exists s', push comp v s = Ok tt s' /\ Permutation (c s') (v :: c s)) /\
  (0 < len (c s) ->
   exists s' x, pop comp s = Ok tt s' /\ top s = Ok x s /\
                Permutation (c s) (x :: c s')) /\
  (forall fuel k, k < len (c s) -> (N.to_nat k < fuel)%nat ->
                  exists s', upheap comp fuel k s = Ok tt s' /\
                             Permutation (c s) (c s')) /\
  (forall fuel k, k <= len (c s) -> len (c s) < k + N.of_nat fuel ->
                  exists s', downheap comp fuel k s = Ok tt s' /\
                             Permutation (c s) (c s')).
Proof.
  intros Hfit. split; [| split; [| split]].
  - destruct (push_ok comp v s) as [s' [E P]]. exists s'. now split.
  - intros Hpos. destruct (pop_ok comp s Hfit Hpos) as [s' [x [E [Hx P]]]].
    exists s', x. repeat split; [assumption | | assumption].
    unfold top, c_at. fold (get (c s) 0). now rewrite Hx.
  - intros fuel k Hk Hf. apply upheap_ok; auto.
    unfold fits, SizeT.max_size, SizeT.modulus in *. lia.
  - intros fuel k Hk Hf. now apply downheap_ok.
Qed.

Lemma multiset_preserved_witness :
  let s := mkState [9; 4; 7; 1]%Z [] in
  fits (c s) /\ 0 < len (c s) /\
  (exists s', push less 8%Z s = Ok tt s' /\
              Permutation (c s') (8 :: c s)%Z) /\
  (exists s' x, pop less s = Ok tt s' /\ top s = Ok x s /\
                Permutation (c s) (x :: c s')).
Proof.
  assert (fits [9; 4; 7; 1]%Z) as Hfit by (vm_compute; discriminate).
  assert (0 < len [9; 4; 7; 1]%Z) as Hpos by reflexivity.
  destruct (multiset_preserved less (mkState [9; 4; 7; 1]%Z []) 8%Z Hfit)
    as [Hpush [Hpop _]].
  split; [exact Hfit |]. split; [exact Hpos |]. split; [exact Hpush |].
  exact (Hpop Hpos).
Defined.

(** C10: the copy overload [push(const T&)] and the move overload
    [push(T&&)] leave the same heap behind for the same value. *)
Theorem push_overloads_agree {T} (comp : T -> T -> bool) (s : state)
  (v : T) :
  push comp v s = push_move comp v s.
Proof. reflexivity. Qed.

(** * Further properties *)

(** ** What the members write to the trace, and how often they recurse *)

Section Cost.

Context {T : Type}.
Variable comp : T -> T -> bool.
Implicit Types (s : @state T) (k d : N) (evs : list (@event T)).

Lemma count_events_app (f : @event T -> bool) evs1 evs2 :
  count_events f (evs1 ++ evs2)
  = (count_events f evs1 + count_events f evs2)%nat.
Proof. unfold count_events. now rewrite List.filter_app, length_app. Qed.

Lemma upheap_trace fuel k s :
  k < SizeT.modulus -> k < len (c s) -> (N.to_nat k < fuel)%nat ->
  exists s' evs,
    upheap comp fuel k s = Ok tt s' /\ trace s' = trace s ++ evs /\
    forallb (fun e => negb (is_output e)) evs = true /\
    count_events is_downheap_call evs = O /\
    forall d, k + 1 < 2 ^ d ->
              N.of_nat (count_events is_upheap_call evs) <= d.
Proof.
  revert k s. induction fuel as [| fuel IH]; intros k s Hm Hk Hfuel; [lia |].
  rewrite upheap_step. cbv zeta.
  assert (forall d, k + 1 < 2 ^ d -> 1 <= d) as Hd1.
  { intros d Hd. destruct (N.eq_dec d 0) as [-> | Nd]; [cbn in Hd |]; lia. }
  destruct (N.eqb_spec k 0) as [-> | Nz].
  { eexists. exists [Call_upheap 0 (len (c s))].
    repeat split. intros d Hd. apply (Hd1 d Hd). }
  pose proof (parent_lt k ltac:(lia) Hm) as Hp.
  destruct (get_some (c s) (parent k)) as [p Ep]; [lia |].
  destruct (get_some (c s) k) as [x Ex]; [lia |].
  rewrite Ep, Ex. destruct (comp p x).
  - edestruct (IH (parent k)) as [s' [evs [E [Ht [Ho [Hdn Hc]]]]]];
      [| | | exists s', (Call_upheap k (len (c s)) :: evs);
             split; [exact E |]].
    + lia.
    + cbn [c]. rewrite len_exchange. lia.
    + lia.
    + cbn [trace entered] in Ht. rewrite Ht, <- app_assoc.
      repeat split; [exact Ho | exact Hdn |].
      intros d Hd. pose proof (Hd1 d Hd) as H1.
      replace d with (N.succ (d - 1)) in Hd by lia.
      rewrite N.pow_succ_r' in Hd.
      specialize (Hc (d - 1)). rewrite parent_small in Hc by lia.
      change (count_events is_upheap_call (Call_upheap k (len (c s)) :: evs))
        with (S (count_events is_upheap_call evs)).
      assert ((k - 1) / 2 + 1 < 2 ^ (d - 1)) as Hlt by lia.
      specialize (Hc Hlt). lia.
  - eexists. exists [Call_upheap k (len (c s))].
    repeat split. intros d Hd. apply (Hd1 d Hd).
Qed.

Lemma downheap_trace fuel k s :
  fits (c s) -> k <= len (c s) -> len (c s) < k + N.of_nat fuel ->
  exists s' evs,
    downheap comp fuel k s = Ok tt s' /\ trace s' = trace s ++ evs /\
    forallb (fun e => negb (is_output e)) evs = true /\
    forall d, 1 <= d -> len (c s) < (k + 1) * 2 ^ d ->
              N.of_nat (count_events is_downheap_call evs) <= d.
Proof.
  revert k s. induction fuel as [| fuel IH]; intros k s Hfit Hk Hfuel; [lia |].
  assert (left_child k = 2 * k + 1) as EL
    by (apply left_child_small; unfold fits in Hfit; lia).
  set (e0 := @Call_downheap T k (len (c s))).
  assert (exists s' evs,
            Ok tt (entered e0 s) = Ok tt s' /\ trace s' = trace s ++ evs /\
            forallb (fun e => negb (is_output e)) evs = true /\
            forall d, 1 <= d -> len (c s) < (k + 1) * 2 ^ d ->
                      N.of_nat (count_events is_downheap_call evs) <= d)
    as Hstop.
  { exists (entered e0 s), [e0]. repeat split. intros d Hd _. exact Hd. }
  destruct (N.le_gt_cases (len (c s)) (left_child k)) as [HL | HL].
  { rewrite downheap_leaf by assumption. exact Hstop. }
  assert (right_child k = 2 * k + 2) as ER
    by (apply right_child_small; unfold fits in Hfit; lia).
  destruct (get_some (c s) k) as [x Ex]; [lia |].
  destruct (get_some (c s) (left_child k)) as [l El]; [lia |].
  assert (forall j, j = 2 * k + 1 \/ j = 2 * k + 2 -> j < len (c s) ->
            exists s' evs,
              downheap comp fuel j (swapped k j (entered e0 s)) = Ok tt s' /\
              trace s' = trace s ++ evs /\
              forallb (fun e => negb (is_output e)) evs = true /\
              forall d, 1 <= d -> len (c s) < (k + 1) * 2 ^ d ->
                        N.of_nat (count_events is_downheap_call evs) <= d)
    as Hrec.
  { intros j Hj Hjl.
    edestruct (IH j (swapped k j (entered e0 s)))
      as [s' [evs [E [Ht [Ho Hc]]]]];
      [| | | exists s', (e0 :: Call_swap k j :: evs); split; [exact E |]].
    - unfold fits in *. cbn [c swapped entered]. now rewrite len_exchange.
    - cbn [c swapped entered]. rewrite len_exchange. lia.
    - cbn [c swapped entered]. rewrite len_exchange. lia.
    - cbn [c trace swapped entered] in Ht, Hc. rewrite len_exchange in Hc.
      rewrite Ht, <- !app_assoc. repeat split; [exact Ho |].
      intros d Hd Hlt.
      assert (d <> 1) as Hd2 by (intros ->; cbn in Hlt; lia).
      replace d with (N.succ (d - 1)) in Hlt by lia.
      rewrite N.pow_succ_r' in Hlt.
      change (count_events is_downheap_call (e0 :: Call_swap k j :: evs))
        with (S (count_events is_downheap_call evs)).
      specialize (Hc (d - 1)).
      assert (len (c s) < (j + 1) * 2 ^ (d - 1)) as Hlt' by nia.
      specialize (Hc ltac:(lia) Hlt'). lia. }
  destruct (N.le_gt_cases (len (c s)) (right_child k)) as [HR | HR].
  - rewrite (downheap_left_only comp fuel k s x l) by assumption. cbv zeta.
    destruct (comp x l); [apply Hrec; lia | exact Hstop].
  - destruct (get_some (c s) (right_child k)) as [r Er]; [lia |].
    rewrite (downheap_both comp fuel k s x l r) by assumption. cbv zeta.
    destruct (comp r x && comp l x); [exact Hstop |].
    destruct (comp r l); apply Hrec; lia.
Qed.

End Cost.

(** X1: [push] writes nothing to [std::cout] and never enters [downheap];
    on a heap of n elements it enters [upheap] at most d times, for every
    d with n + 1 < 2 ^ d: the O(log(size())) of its documentation. *)
Theorem push_is_silent_and_logarithmic {T} (comp : T -> T -> bool)
  (s : state) (v : T) (d : N) :
  len (c s) < SizeT.max_size -> len (c s) + 1 < 2 ^ d ->
  exists s' evs,
    push comp v s = Ok tt s' /\ trace s' = trace s ++ evs /\
    forallb (fun e => negb (is_output e)) evs = true /\
    count_events is_downheap_call evs = O /\
    N.of_nat (count_events is_upheap_call evs) <= d.
Proof.
  intros Hlen Hd.
  assert (len (c s) < SizeT.modulus) as Hm
    by (unfold SizeT.max_size, SizeT.modulus in *; lia).
  rewrite push_unfold, push_index by exact Hm.
  destruct (upheap_trace comp (S (length (c s ++ [v]))) (len (c s))
              (mkState (c s ++ [v]) (trace s)))
    as [s' [evs [E [Ht [Ho [Hdn Hc]]]]]].
  - exact Hm.
  - cbn [c]. rewrite len_snoc. lia.
  - unfold len. rewrite length_app. lia.
  - exists s', evs. repeat split; auto.
Qed.

Lemma push_is_silent_and_logarithmic_witness :
  let s := mkState [9; 4; 7; 1; 3; 6]%Z [] in
  len (c s) < SizeT.max_size /\ len (c s) + 1 < 2 ^ 3 /\
  exists s' evs,
    push less 8%Z s = Ok tt s' /\ trace s' = trace s ++ evs /\
    forallb (fun e => negb (is_output e)) evs = true /\
    count_events is_downheap_call evs = O /\
    N.of_nat (count_events is_upheap_call evs) <= 3.
Proof.
  assert (len [9; 4; 7; 1; 3; 6]%Z < SizeT.max_size) as H1 by reflexivity.
  assert (len [9; 4; 7; 1; 3; 6]%Z + 1 < 2 ^ 3) as H2 by reflexivity.
  split; [exact H1 |]. split; [exact H2 |].
  exact (push_is_silent_and_logarithmic less
           (mkState [9; 4; 7; 1; 3; 6]%Z []) 8%Z 3 H1 H2).
Defined.

(** X2: [pop] on a non-empty heap of n elements writes exactly two lines:
    first the old root and the old last element, last "downheap finished";
    in between it calls [swap(0, n-1)] and enters [downheap] at most d
    times, for every d >= 1 with n - 1 < 2 ^ d: the O(log(size())) of its
    documentation. *)
Theorem pop_output_and_cost {T} (comp : T -> T -> bool) (s : state)
  (d : N) :
  fits (c s) -> 0 < len (c s) -> 1 <= d -> len (c s) - 1 < 2 ^ d ->
  exists s' x y evs,
    pop comp s = Ok tt s' /\
    get (c s) 0 = Some x /\ get (c s) (len (c s) - 1) = Some y /\
    trace s' = trace s ++ [Out_replacing x y; Call_swap 0 (len (c s) - 1)]
                 ++ evs ++ [Out_finished] /\
    forallb (fun e => negb (is_output e)) evs = true /\
    N.of_nat (count_events is_downheap_call evs) <= d.
Proof.
  intros Hfit Hpos Hd1 Hd.
  destruct (get_some (c s) 0) as [x Hx]; [lia |].
  destruct (get_some (c s) (len (c s) - 1)) as [y Hy]; [lia |].
  rewrite (pop_unfold comp s x y) by
    (try assumption; unfold fits, SizeT.max_size, SizeT.modulus in *; lia).
  cbv zeta. set (q := removelast (exchange (c s) 0 (len (c s) - 1))).
  assert (len q = len (c s) - 1) as Lq
    by (unfold q; now rewrite len_removelast, len_exchange).
  edestruct (downheap_trace comp (S (length q)) 0)
    as [s' [evs [E [Ht [Ho Hc]]]]];
    [| | | unfold bind; rewrite E; unfold emit;
           eexists; exists x, y, evs;
           split; [reflexivity | split; [exact Hx | split; [exact Hy |]]]].
  - unfold fits in *. cbn [c]. lia.
  - cbn [c]. lia.
  - cbn [c]. unfold len. lia.
  - cbn [c trace] in *. rewrite Ht, <- !app_assoc. cbn [app].
    repeat split; [exact Ho |]. apply Hc; [exact Hd1 | lia].
Qed.

Lemma pop_output_and_cost_witness :
  let s := mkState [9; 4; 7; 1; 3; 6]%Z [] in
  fits (c s) /\ 0 < len (c s) /\ 1 <= 3 /\ len (c s) - 1 < 2 ^ 3 /\
  exists s' x y evs,
    pop less s = Ok tt s' /\
    get (c s) 0 = Some x /\ get (c s) (len (c s) - 1) = Some y /\
    trace s' = trace s ++ [Out_replacing x y; Call_swap 0 (len (c s) - 1)]
                 ++ evs ++ [Out_finished] /\
    forallb (fun e => negb (is_output e)) evs = true /\
    N.of_nat (count_events is_downheap_call evs) <= 3.
Proof.
  assert (fits [9; 4; 7; 1; 3; 6]%Z) as H1 by (vm_compute; discriminate).
  assert (0 < len [9; 4; 7; 1; 3; 6]%Z) as H2 by reflexivity.
  assert (1 <= 3) as H3 by (vm_compute; discriminate).
  assert (len [9; 4; 7; 1; 3; 6]%Z - 1 < 2 ^ 3) as H4 by reflexivity.
  split; [exact H1 |]. split; [exact H2 |]. split; [exact H3 |].
  split; [exact H4 |].
  exact (pop_output_and_cost less (mkState [9; 4; 7; 1; 3; 6]%Z []) 3
           H1 H2 H3 H4).
Defined.

(** ** Index arithmetic, [is_internal], and the single steps *)

(** X3: within [max_size()] the index functions invert each other:
    [parent] of either child of [i] is [i], the right child is the left
    child plus one, and every non-root index [j] is the left or the right
    child of its parent. *)
Theorem children_and_parent_are_inverse (i j : N) :
  i < SizeT.max_size -> 0 < j -> j <= SizeT.max_size ->
  parent (left_child i) = i /\ parent (right_child i) = i /\
  right_child i = left_child i + 1 /\
  (left_child (parent j) = j \/ right_child (parent j) = j) /\
  left_child (parent j) <> right_child (parent j).
Proof.
  intros Hi Hj0 Hj. pose proof Hi as Hi'. pose proof Hj as Hj'.
  unfold SizeT.max_size in Hi', Hj'.
  rewrite (left_child_small i), (right_child_small i) by lia.
  rewrite (parent_small (2 * i + 1)), (parent_small (2 * i + 2))
    by (unfold SizeT.modulus; lia).
  rewrite (parent_small j) by (unfold SizeT.modulus; lia).
  assert ((j - 1) / 2 < SizeT.max_size) as Hp
    by (unfold SizeT.max_size; lia).
  rewrite (left_child_small ((j - 1) / 2)), (right_child_small ((j - 1) / 2))
    by lia.
  lia.
Qed.

Lemma children_and_parent_are_inverse_witness :
  5 < SizeT.max_size /\ 0 < 12 /\ 12 <= SizeT.max_size /\
  parent (left_child 5) = 5 /\ parent (right_child 5) = 5 /\
  right_child 5 = left_child 5 + 1 /\
  (left_child (parent 12) = 12 \/ right_child (parent 12) = 12) /\
  left_child (parent 12) <> right_child (parent 12).
Proof.
  assert (5 < SizeT.max_size) as H1 by reflexivity.
  assert (0 < 12) as H2 by reflexivity.
  assert (12 <= SizeT.max_size) as H3 by (vm_compute; discriminate).
  split; [exact H1 |]. split; [exact H2 |]. split; [exact H3 |].
  exact (children_and_parent_are_inverse 5 12 H1 H2 H3).
Defined.

(** X4: [is_internal(i)] returns true exactly when [c[left_child(i)]] is
    an element of the container, [is_leaf(i)] returns the opposite, and
    neither changes the heap. *)
Theorem is_internal_is_not_is_leaf {T} (s : @state T) (k : N) :
  exists b, is_internal k s = Ok b s /\ is_leaf k s = Ok (negb b) s /\
            (b = true <-> exists x, get (c s) (left_child k) = Some x).
Proof.
  exists (left_child k <? len (c s)). repeat split.
  - unfold is_leaf, bind, c_size, ret. fold (len (c s)).
    now rewrite N.leb_antisym.
  - intros H. apply N.ltb_lt in H. now apply get_some.
  - intros [x Hx]. apply N.ltb_lt. now apply (get_lt _ _ x).
Qed.

(** X5: one call of [upheap] at a non-root index in range: when the
    parent has strictly lower priority than the element, the two are
    exchanged and [upheap] continues at the parent's index; otherwise,
    ties included, it returns with the container unchanged. *)
Theorem upheap_at_a_node {T} (comp : T -> T -> bool) (fuel : nat) (k : N)
  (s : state) (p x : T) :
  0 < k -> get (c s) (parent k) = Some p -> get (c s) k = Some x ->
  upheap comp (S fuel) k s =
    let s1 := entered (Call_upheap k (len (c s))) s in
    if comp p x
    then upheap comp fuel (parent k)
           (mkState (exchange (c s) (parent k) k) (trace s1))
    else Ok tt s1.
Proof.
  intros Hk Hp Hx. rewrite upheap_step. cbv zeta.
  destruct (N.eqb_spec k 0); [lia |]. now rewrite Hp, Hx.
Qed.

Lemma upheap_at_a_node_witness :
  let s := mkState [9; 4; 7; 8]%Z [] in
  0 < 3 /\ get (c s) (parent 3) = Some 4%Z /\ get (c s) 3 = Some 8%Z /\
  upheap less 2 3 s =
    upheap less 1 1 (mkState [9; 8; 7; 4]%Z [Call_upheap 3 4]).
Proof.
  refine (conj _ (conj _ (conj _ _))); [reflexivity .. |].
  apply (upheap_at_a_node less 1 3 (mkState [9; 4; 7; 8]%Z []) 4%Z 8%Z);
    reflexivity.
Defined.

(** X6: one call of [downheap] at a node whose only child is the left
    one: when the child has strictly higher priority than the node, the
    two are exchanged and [downheap] continues at the child's index;
    otherwise, ties included, it returns with the container unchanged. *)
Theorem downheap_at_node_with_left_child_only {T} (comp : T -> T -> bool)
  (fuel : nat) (k : N) (s : state) (x l : T) :
  left_child k < len (c s) -> len (c s) <= right_child k ->
  get (c s) k = Some x -> get (c s) (left_child k) = Some l ->
  downheap comp (S fuel) k s =
    let s1 := entered (Call_downheap k (len (c s))) s in
    if comp x l
    then downheap comp fuel (left_child k) (swapped k (left_child k) s1)
    else Ok tt s1.
Proof. apply downheap_left_only. Qed.

Lemma downheap_at_node_with_left_child_only_witness :
  let s := mkState [5; 5]%Z [] in
  left_child 0 < len (c s) /\ len (c s) <= right_child 0 /\
  get (c s) 0 = Some 5%Z /\ get (c s) (left_child 0) = Some 5%Z /\
  downheap less 1 0 s = Ok tt (entered (Call_downheap 0 2) s).
Proof.
  assert (len [5; 5]%Z <= right_child 0) as H2 by (vm_compute; discriminate).
  refine (conj _ (conj H2 (conj _ (conj _ _)))); [reflexivity .. |].
  apply (downheap_at_node_with_left_child_only less 0 0
           (mkState [5; 5]%Z []) 5%Z 5%Z); [reflexivity | exact H2 | |];
    reflexivity.
Defined.

(** ** What [top] returns *)

Section Top.

Context {T : Type} (comp : T -> T -> bool).
Implicit Types (s : @state T) (k : N) (x y r v : T).

Lemma top_get s x : get (c s) 0 = Some x -> top s = Ok x s.
Proof. intros H. unfold top, c_at. fold (get (c s) 0). now rewrite H. Qed.

Lemma elem_get (q : list T) y : y ∈ q -> exists i, get q i = Some y.
Proof.
  intros [n Hn]%list_elem_of_lookup. exists (N.of_nat n).
  unfold get. now rewrite Nat2N.id.
Qed.

Lemma get_elem (q : list T) i y : get q i = Some y -> y ∈ q.
Proof. unfold get. intros H. apply list_elem_of_lookup. eauto. Qed.

(** [upheap] leaves the root where it is unless the element it carries
    has strictly higher priority *)
Lemma upheap_keeps_root fuel k s s' x r :
  k < SizeT.modulus ->
  get (c s) k = Some x -> get (c s) 0 = Some r -> comp r x = false ->
  upheap comp fuel k s = Ok tt s' -> get (c s') 0 = Some r.
Proof.
  revert k s. induction fuel as [| fuel IH]; intros k s Hm Hx Hr Hc E;
    [discriminate |].
  rewrite upheap_step in E. cbv zeta in E.
  destruct (N.eqb_spec k 0) as [-> | Nz]; [now injection E as <- |].
  pose proof (parent_lt k ltac:(lia) Hm) as Hlt.
  destruct (get (c s) (parent k)) as [p |] eqn:Ep; [| discriminate].
  rewrite Hx in E. destruct (comp p x) eqn:Epx; [| now injection E as <-].
  assert (parent k <> 0) as Np by (intros E0; rewrite E0 in Ep; congruence).
  apply IH in E; [assumption | lia | | | assumption]; cbn [c].
  - rewrite (get_exchange _ _ _ p x) by assumption.
    destruct (N.eqb_spec (parent k) k); [lia |]. now rewrite N.eqb_refl.
  - rewrite (get_exchange _ _ _ p x) by assumption.
    destruct (N.eqb_spec 0 k); [lia |].
    destruct (N.eqb_spec 0 (parent k)); [lia |]. assumption.
Qed.

Context `{!StrictWeakOrdering comp}.

Lemma top_is_max s r :
  heap_property comp (c s) -> get (c s) 0 = Some r ->
  forall y, y ∈ c s -> comp r y = false.
Proof.
  intros Hheap Hr y [i Hi]%elem_get. exact (root_max comp _ r Hheap Hr i y Hi).
Qed.

Lemma push_top s v r :
  len (c s) < SizeT.max_size ->
  heap_property comp (c s) -> get (c s) 0 = Some r ->
  exists s', push comp v s = Ok tt s' /\
             heap_property comp (c s') /\
             Permutation (v :: c s) (c s') /\
             get (c s') 0 = Some (if comp r v then v else r).
Proof.
  intros Hlen Hheap Hr. destruct (push_ok comp v s) as [s' [E P]].
  pose proof (push_heap comp v s s' Hlen E Hheap) as Hheap'.
  exists s'. repeat split; [exact E | exact Hheap' | exact P |].
  assert (len (c s) < SizeT.modulus) as Hm
    by (unfold SizeT.max_size, SizeT.modulus in *; lia).
  pose proof (get_lt _ _ _ Hr) as Hpos.
  destruct (comp r v) eqn:Erv.
  - destruct (get_some (c s') 0) as [r' Hr'].
    { unfold len. rewrite <- (Permutation_length P). cbn. lia. }
    rewrite Hr'. f_equal.
    assert (r' ∈ v :: c s) as Hin by (rewrite P; now apply (get_elem _ 0)).
    apply elem_of_cons in Hin as [-> | Hin]; [reflexivity |].
    pose proof (top_is_max s r Hheap Hr r' Hin) as H1.
    assert (v ∈ c s') as Hv by (rewrite <- P; now left).
    pose proof (top_is_max s' r' Hheap' Hr' v Hv) as H2.
    now rewrite (comp_negtrans comp _ _ _ H1 H2) in Erv.
  - rewrite push_unfold, push_index in E by exact Hm.
    apply (upheap_keeps_root _ _ _ _ v r) in E; [assumption | exact Hm | | |];
      cbn [c]; rewrite ?get_snoc.
    + destruct (N.ltb_spec (len (c s)) (len (c s))); [lia |].
      now rewrite N.eqb_refl.
    + destruct (N.ltb_spec 0 (len (c s))); [assumption | lia].
    + assumption.
Qed.

End Top.

(** ** Taking elements out, for every comparison *)

Section Drain.

Context {T : Type} (comp : T -> T -> bool).
Implicit Types (s : @state T) (x y : T).

Lemma top_empty s : c s = [] -> top s = Fault (OutOfBounds 0).
Proof. intros H. unfold top, c_at. now rewrite H. Qed.

Lemma drain_step n s s1 x :
  get (c s) 0 = Some x -> pop comp s = Ok tt s1 ->
  drain comp (S n) s =
    bind (drain comp n) (fun rest => ret (x :: rest)) s1.
Proof.
  intros Hx E. cbn [drain]. unfold bind at 1. rewrite (top_get s x Hx).
  unfold bind at 1. now rewrite E.
Qed.

Lemma drain_ok n s :
  fits (c s) -> length (c s) = n ->
  exists out s', drain comp n s = Ok out s' /\ c s' = [] /\
                 Permutation (c s) out.
Proof.
  revert s. induction n as [| n IH]; intros s Hfit Hlen.
  - exists [], s. apply length_zero_iff_nil in Hlen. rewrite Hlen.
    now repeat split.
  - assert (0 < len (c s)) as Hpos by (unfold len; lia).
    destruct (pop_ok comp s Hfit Hpos) as [s1 [x [E [Hx P]]]].
    pose proof (Permutation_length P) as PL. cbn [length] in PL.
    destruct (IH s1) as [out [s' [E' [Hnil P']]]];
      [unfold fits, len in *; lia | lia |].
    exists (x :: out), s'. rewrite (drain_step n s s1 x Hx E).
    unfold bind. rewrite E'. repeat split; [assumption |].
    etransitivity; [exact P | now apply perm_skip].
Qed.

Lemma drain_too_many n s :
  fits (c s) -> (length (c s) < n)%nat ->
  drain comp n s = Fault (OutOfBounds 0).
Proof.
  revert s. induction n as [| n IH]; intros s Hfit Hlen; [lia |].
  destruct (Nat.eq_dec (length (c s)) O) as [E0 | N0].
  - apply length_zero_iff_nil in E0. cbn [drain]. unfold bind.
    now rewrite (top_empty s E0).
  - assert (0 < len (c s)) as Hpos by (unfold len; lia).
    destruct (pop_ok comp s Hfit Hpos) as [s1 [x [E [Hx P]]]].
    pose proof (Permutation_length P) as PL. cbn [length] in PL.
    rewrite (drain_step n s s1 x Hx E). unfold bind.
    rewrite IH; [reflexivity | | lia].
    unfold fits, len in *. lia.
Qed.

Lemma drain_loop_drain fuel s :
  fits (c s) -> (length (c s) < fuel)%nat ->
  drain_loop comp fuel s = drain comp (length (c s)) s.
Proof.
  revert s. induction fuel as [| fuel IH]; intros s Hfit Hlen; [lia |].
  cbn [drain_loop]. unfold bind at 1. unfold empty, bind, c_size, ret.
  destruct (N.eqb_spec (N.of_nat (length (c s))) 0) as [E0 | N0]; cbn [negb].
  - replace (length (c s)) with O by lia. reflexivity.
  - assert (0 < len (c s)) as Hpos by (unfold len; lia).
    destruct (pop_ok comp s Hfit Hpos) as [s1 [x [E [Hx P]]]].
    pose proof (Permutation_length P) as PL. cbn [length] in PL.
    rewrite PL. rewrite (drain_step (length (c s1)) s s1 x Hx E).
    rewrite (top_get s x Hx). rewrite E.
    rewrite IH; [reflexivity | | lia].
    unfold fits, len in *. lia.
Qed.

End Drain.

(** ** Input that is already in priority order *)

Section SortedInput.

Context {T : Type} (comp : T -> T -> bool).

Lemma run_pushes_sorted (q2 q1 : list T) (t : list event) :
  StronglySorted (fun u w => comp u w = false) (q1 ++ q2) ->
  N.of_nat (length (q1 ++ q2)) <= SizeT.max_size ->
  exists s', run comp (map Push q2) (mkState q1 t) = Ok tt s' /\
             c s' = q1 ++ q2.
Proof.
  revert q1 t. induction q2 as [| v q2 IH]; intros q1 t Hs Hb.
  - eexists. split; [reflexivity |]. cbn [c]. now rewrite app_nil_r.
  - assert (len q1 < SizeT.modulus) as Hm.
    { rewrite length_app in Hb. cbn [length] in Hb.
      unfold len, SizeT.max_size, SizeT.modulus in *. lia. }
    assert (exists t', push comp v (mkState q1 t)
                       = Ok tt (mkState (q1 ++ [v]) t')) as [t' E].
    { rewrite push_unfold, push_index by exact Hm. cbn [c trace].
      rewrite upheap_step. cbv zeta. cbn [c trace entered].
      destruct (N.eqb_spec (len q1) 0) as [E0 | N0]; [now eexists |].
      assert (parent (len q1) < len q1) as Hp by (apply parent_lt; lia).
      destruct (get_some q1 (parent (len q1)) Hp) as [p Ep].
      rewrite !get_snoc. destruct (N.ltb_spec (parent (len q1)) (len q1));
        [| lia].
      destruct (N.ltb_spec (len q1) (len q1)); [lia |].
      rewrite N.eqb_refl, Ep.
      assert (comp p v = false) as ->; [| now eexists].
      destruct (proj1 (StronglySorted_app _ _ _) Hs) as (Hall & _ & _).
      apply Hall.
      - now apply (get_elem _ (parent (len q1))).
      - now left. }
    destruct (IH (q1 ++ [v]) t') as [s' [E' Hc]].
    + now rewrite <- app_assoc.
    + now rewrite <- app_assoc.
    + exists s'. cbn [map run]. unfold bind. rewrite E.
      split; [exact E' |]. now rewrite Hc, <- app_assoc.
Qed.

End SortedInput.

(** ** Priorities seen by the caller *)

Lemma top_inv {T} (s : @state T) (r : T) :
  top s = Ok r s -> get (c s) 0 = Some r.
Proof.
  unfold top, c_at, get. destruct (c s !! N.to_nat 0); [| discriminate].
  now intros [= ->].
Qed.

(** the heap used in the witnesses below *)
Lemma sample_heap : heap_property less [9; 4; 7; 1]%Z.
Proof.
  intros i x y Hi Hx Hy. pose proof (get_lt _ _ _ Hx) as Hl.
  change (len [9; 4; 7; 1]%Z) with 4 in Hl.
  assert (i = 1 \/ i = 2 \/ i = 3) as [-> | [-> | ->]] by lia;
    vm_compute in Hx, Hy; injection Hx as <-; injection Hy as <-;
    reflexivity.
Qed.

(** X7: after every sequence of [push] and [pop] calls from an empty heap
    (each [pop] on a non-empty heap, [comp] a strict weak ordering), the
    heap is empty or [top()] returns a stored element that no stored
    element exceeds in priority. *)
Theorem top_returns_a_maximum {T} (comp : T -> T -> bool)
  `{!StrictWeakOrdering comp} (ops : list op) :
  pops_nonempty 0 ops = true ->
  N.of_nat (length ops) <= SizeT.max_size ->
  exists s', run comp ops init = Ok tt s' /\
             (c s' = [] \/
              exists x, top s' = Ok x s' /\ In x (c s') /\
                        forall y, In y (c s') -> comp x y = false).
Proof.
  intros Hne Hb. destruct (run_heap comp ops init) as [s' [E Hheap]]; auto.
  { intros i x y _ Hx. discriminate Hx. }
  exists s'. split; [exact E |].
  destruct (Nat.eq_dec (length (c s')) O) as [E0 | N0].
  - left. now apply length_zero_iff_nil.
  - right. destruct (get_some (c s') 0) as [x Hx]; [unfold len; lia |].
    exists x. split; [now apply top_get |]. split.
    + apply list_elem_of_In. now apply (get_elem _ 0).
    + intros y Hy. apply list_elem_of_In in Hy.
      now apply (top_is_max comp s' x).
Qed.

Lemma top_returns_a_maximum_witness :
  let ops := [Push 3; Push 5; Pop; Push 1; Push 4; Push 4]%Z in
  pops_nonempty 0 ops = true /\
  N.of_nat (length ops) <= SizeT.max_size /\
  exists s', run less ops init = Ok tt s' /\
             (c s' = [] \/
              exists x, top s' = Ok x s' /\ In x (c s') /\
                        forall y, In y (c s') -> less x y = false).
Proof.
  assert (N.of_nat 6 <= SizeT.max_size) as Hb by (vm_compute; discriminate).
  split; [reflexivity |]. split; [exact Hb |].
  apply (top_returns_a_maximum less); [reflexivity | exact Hb].
Defined.

(** X8: on a non-empty heap whose [top()] is [r], [top()] after
    [push(v)] returns [v] when [v] has strictly higher priority than [r],
    and still returns [r] otherwise, ties included. *)
Theorem top_after_push {T} (comp : T -> T -> bool)
  `{!StrictWeakOrdering comp} (s : state) (v r : T) :
  len (c s) < SizeT.max_size -> heap_property comp (c s) ->
  top s = Ok r s ->
  exists s', push comp v s = Ok tt s' /\
             top s' = Ok (if comp r v then v else r) s'.
Proof.
  intros Hlen Hheap Ht. apply top_inv in Ht.
  destruct (push_top comp s v r Hlen Hheap Ht) as [s' [E [_ [_ Hr]]]].
  exists s'. split; [exact E | now apply top_get].
Qed.

Lemma top_after_push_witness :
  let s := mkState [9; 4; 7; 1]%Z [] in
  len (c s) < SizeT.max_size /\ heap_property less (c s) /\
  top s = Ok 9%Z s /\
  (exists s', push less 12%Z s = Ok tt s' /\ top s' = Ok 12%Z s') /\
  (exists s', push less 9%Z s = Ok tt s' /\ top s' = Ok 9%Z s').
Proof.
  assert (len [9; 4; 7; 1]%Z < SizeT.max_size) as H1 by reflexivity.
  split; [exact H1 |]. split; [exact sample_heap |].
  split; [reflexivity |]. split.
  - exact (top_after_push less (mkState [9; 4; 7; 1]%Z []) 12%Z 9%Z
             H1 sample_heap eq_refl).
  - exact (top_after_push less (mkState [9; 4; 7; 1]%Z []) 9%Z 9%Z
             H1 sample_heap eq_refl).
Defined.

(** X9: pushing, into an empty heap, elements none of which has strictly
    higher priority than an earlier one leaves the container equal to the
    input sequence: no [upheap] exchanges anything. This holds for every
    comparison function. *)
Theorem pushing_sorted_input_keeps_it {T} (comp : T -> T -> bool)
  (q : list T) :
  StronglySorted (fun u w => comp u w = false) q ->
  N.of_nat (length q) <= SizeT.max_size ->
  exists s', run comp (map Push q) init = Ok tt s' /\ c s' = q.
Proof. intros Hs Hb. now apply (run_pushes_sorted comp q [] []). Qed.

Lemma pushing_sorted_input_keeps_it_witness :
  StronglySorted (fun u w => less u w = false) [9; 7; 7; 3]%Z /\
  N.of_nat (length [9; 7; 7; 3]%Z) <= SizeT.max_size /\
  exists s', run less (map Push [9; 7; 7; 3]%Z) init = Ok tt s' /\
             c s' = [9; 7; 7; 3]%Z.
Proof.
  assert (StronglySorted (fun u w => less u w = false) [9; 7; 7; 3]%Z)
    as Hs by (repeat constructor).
  assert (N.of_nat (length [9; 7; 7; 3]%Z) <= SizeT.max_size) as Hb
    by (vm_compute; discriminate).
  split; [exact Hs |]. split; [exact Hb |].
  exact (pushing_sorted_input_keeps_it less [9; 7; 7; 3]%Z Hs Hb).
Defined.

(** ** main.cpp for every input *)

(** X10: for every input sequence, duplicates included, and every strict
    weak ordering, pushing the sequence into a new heap and taking as many
    elements out gives a permutation of the input in which no element has
    strictly lower priority than a later one; the [while (!q.empty())]
    loop of main.cpp gives the same sequence. *)
Theorem heapsort_of_any_input {T} (comp : T -> T -> bool)
  `{!StrictWeakOrdering comp} (q : list T) (fuel : nat) :
  N.of_nat (length q) <= SizeT.max_size -> (length q < fuel)%nat ->
  exists out,
    result (push_then_drain comp q (length q)) = Some out /\
    result (push_then_loop comp q fuel) = Some out /\
    Permutation q out /\
    StronglySorted (fun u w => comp u w = false) out.
Proof.
  intros Hb Hfuel.
  destruct (run_pushes comp q init) as [s1 [E [Hheap P]]].
  - cbn [c init length]. lia.
  - intros i x y _ Hx. discriminate Hx.
  - cbn [c init app] in P. pose proof (Permutation_length P) as PL.
    assert (fits (c s1)) as Hfit by (unfold fits, len; lia).
    destruct (drain_sorted comp (length q) s1) as [out [s' [E' [_ [P' Hs]]]]];
      [assumption | now rewrite PL | assumption |].
    exists out. unfold push_then_drain, push_then_loop, bind. rewrite E.
    rewrite (drain_loop_drain comp fuel s1 Hfit) by lia.
    rewrite <- PL, E'. repeat split; [| assumption]. now rewrite P.
Qed.

Lemma heapsort_of_any_input_witness :
  N.of_nat (length [3; 1; 3; 2]%Z) <= SizeT.max_size /\
  (length [3; 1; 3; 2]%Z < 5)%nat /\
  exists out,
    result (push_then_drain less [3; 1; 3; 2]%Z 4) = Some out /\
    result (push_then_loop less [3; 1; 3; 2]%Z 5) = Some out /\
    Permutation [3; 1; 3; 2]%Z out /\
    StronglySorted (fun u w => less u w = false) out.
Proof.
  assert (N.of_nat (length [3; 1; 3; 2]%Z) <= SizeT.max_size) as Hb
    by (vm_compute; discriminate).
  assert (length [3; 1; 3; 2]%Z < 5)%nat as Hf by (cbn; lia).
  split; [exact Hb |]. split; [exact Hf |].
  exact (heapsort_of_any_input less [3; 1; 3; 2]%Z 5 Hb Hf).
Defined.

(** X11: on every heap within [max_size()], for every comparison
    function, the loop [while (!q.empty()) { q.top(); q.pop(); }] returns
    after exactly [size()] rounds, with the heap empty and having handed
    out each stored element once. *)
Theorem drain_loop_empties_the_heap {T} (comp : T -> T -> bool)
  (s : state) (fuel : nat) :
  fits (c s) -> (length (c s) < fuel)%nat ->
  exists out s', drain_loop comp fuel s = Ok out s' /\
                 drain comp (length (c s)) s = Ok out s' /\
                 c s' = [] /\ Permutation (c s) out.
Proof.
  intros Hfit Hfuel.
  destruct (drain_ok comp (length (c s)) s Hfit eq_refl)
    as [out [s' [E [Hnil P]]]].
  exists out, s'. rewrite (drain_loop_drain comp fuel s Hfit Hfuel).
  now repeat split.
Qed.

Lemma drain_loop_empties_the_heap_witness :
  let s := mkState [9; 4; 7; 1]%Z [] in
  fits (c s) /\ (length (c s) < 5)%nat /\
  exists out s', drain_loop less 5 s = Ok out s' /\
                 drain less (length (c s)) s = Ok out s' /\
                 c s' = [] /\ Permutation (c s) out.
Proof.
  assert (fits [9; 4; 7; 1]%Z) as H1 by (vm_compute; discriminate).
  assert (length [9; 4; 7; 1]%Z < 5)%nat as H2 by (cbn; lia).
  split; [exact H1 |]. split; [exact H2 |].
  exact (drain_loop_empties_the_heap less (mkState [9; 4; 7; 1]%Z []) 5
           H1 H2).
Defined.

(** X12: taking out more elements than the heap holds ends in the
    out-of-range read [c[0]] of [top()], whatever the comparison: the
    emptiness test of main.cpp's loop is what keeps it defined. *)
Theorem drain_past_the_end_reads_out_of_bounds {T} (comp : T -> T -> bool)
  (s : state) (n : nat) :
  fits (c s) -> (length (c s) < n)%nat ->
  drain comp n s = Fault (OutOfBounds 0).
Proof. apply drain_too_many. Qed.

Lemma drain_past_the_end_reads_out_of_bounds_witness :
  let s := mkState [9; 4; 7; 1]%Z [] in
  fits (c s) /\ (length (c s) < 5)%nat /\
  drain less 5 s = Fault (OutOfBounds 0).
Proof.
  assert (fits [9; 4; 7; 1]%Z) as H1 by (vm_compute; discriminate).
  assert (length [9; 4; 7; 1]%Z < 5)%nat as H2 by (cbn; lia).
  split; [exact H1 |]. split; [exact H2 |].
  exact (drain_past_the_end_reads_out_of_bounds less
           (mkState [9; 4; 7; 1]%Z []) 5 H1 H2).
Defined.

(** ** Where the recursions stop *)


